(** * Balance aggregation for the Traveller ledger (src/balance-utils.ts)

    A shallow embedding of the balance utilities and the proofs of their
    specification.

    Modelling conventions.
    - A JavaScript number is an IEEE 754 double, whose sums are rounded.
      The two series of an account, makeBalanceData and makeDeltaData, are
      embedded over any arithmetic ([Number]) and are stated on the
      doubles ([float]) where the rounding decides. The other functions
      are embedded over exact integers ([Z], amounts in minor units);
      their statements give each sum by its terms, in the order in which
      the code adds them. [x || 0] is written out ([orZero]).
    - A JavaScript string is a [string]; [>] on strings is the
      lexicographic order on code units ([String.ltb]).
    - A [Map] is a [gmap]; no function below depends on the order in which
      a [Map] is iterated other than through a sum of its values.
    - A [Moment] is an instant: a day of the proleptic Gregorian calendar
      (year and ordinal day of the year) and a time of that day in
      milliseconds. [isSameOrBefore] compares instants and [add] keeps
      the time of day, as in moment.js. Of the date of a transaction only
      the day is read; the dates of a range carry the time of day at which
      they were made.
    - [while] loops take a fuel argument and return [None] when it runs
      out; the theorems show that the fuel they name is enough.
    - A function that only acts on the outside (a notice, a call of a
      setter it was given) returns the list of what it does, in order
      ([Effect]). *)

From stdpp Require Import gmap strings list fin_maps pretty sorting.
From Stdlib Require Import Ascii ZArith Lia PrimFloat.

Local Open Scope Z_scope.

(** ** The calendar (the part of moment.js that the code uses) *)

(** A moment in time: a calendar day and the time of that day in
    milliseconds. The dates of a range are made with [window.moment()]
    and carry the time of day at which they were made. *)
Record Moment : Type :=
  momentAt { year : Z; dayOfYear : Z; timeOfDay : Z }.

(** The start of a day: the moment that [window.moment(date)] makes of the
    date of a transaction. *)
Definition mkMoment (year dayOfYear : Z) : Moment :=
  momentAt year dayOfYear 0.

Global Instance Moment_eq_dec : EqDecision Moment.
Proof. solve_decision. Defined.

Definition isLeapYear (y : Z) : bool :=
  (y mod 4 =? 0) && (negb (y mod 100 =? 0) || (y mod 400 =? 0)).

Definition daysInYear (y : Z) : Z := if isLeapYear y then 366 else 365.

Definition msPerDay : Z := 86400000.

(** A [Moment] always denotes a real day and a time within it. *)
Definition validMoment (m : Moment) : Prop :=
  1 ≤ dayOfYear m ≤ daysInYear (year m) ∧ 0 ≤ timeOfDay m < msPerDay.

Global Instance validMoment_dec m : Decision (validMoment m).
Proof. unfold validMoment. apply _. Defined.

(** [m.add(1, 'day')]: the same time on the next day. *)
Definition addDay (m : Moment) : Moment :=
  if dayOfYear m <? daysInYear (year m)
  then momentAt (year m) (dayOfYear m + 1) (timeOfDay m)
  else momentAt (year m + 1) 1 (timeOfDay m).

(** The number of days of the years before [y] (from year 1), and the
    index of a day on the line of all days. *)
Definition daysBeforeYear (y : Z) : Z :=
  365 * (y - 1) + (y - 1) / 4 - (y - 1) / 100 + (y - 1) / 400.

Definition dayNumber (m : Moment) : Z := daysBeforeYear (year m) + dayOfYear m.

(** [m.valueOf()]: the milliseconds on the line of time, counted from the
    start of year 1 rather than from 1970, which no comparison sees. Every
    day has 24 hours: the clock is not shifted between the two dates of a
    range. *)
Definition valueOf (m : Moment) : Z := dayNumber m * msPerDay + timeOfDay m.

(** [a.isSameOrBefore(b)], without a unit: the comparison of the two
    instants. *)
Definition isSameOrBefore (a b : Moment) : bool := valueOf a <=? valueOf b.

Definition addDays (n : nat) (m : Moment) : Moment := Nat.iter n addDay m.

(** The moments that a loop from [s] visits while they are the same as or
    before [e]: [s], the same time on the next day, and so on. *)
Definition loopDays (s e : Moment) : list Moment :=
  (λ i, addDays i s)
    <$> seq 0 (Z.to_nat ((valueOf e - valueOf s) `div` msPerDay + 1)).

(** ** Strings *)

(** [c.repeat(n)] for a one-character string. *)
Fixpoint repeatChar (n : nat) (c : ascii) : string :=
  match n with
  | O => EmptyString
  | Datatypes.S n' => String c (repeatChar n' c)
  end.

(** [s.padStart(n, c)] for a one-character pad string. *)
Definition padStart (n : nat) (c : ascii) (s : string) : string :=
  String.app (repeatChar (n - String.length s) c) s.

(** [n.toString()] on an integer. *)
Definition toString (n : Z) : string := pretty n.

(** [`${m.year()}.${m.dayOfYear().toString().padStart(3, '0')}`] *)
Definition travellerKey (m : Moment) : string :=
  String.app (toString (year m))
    (String.app "." (padStart 3 "0"%char (toString (dayOfYear m)))).

(** ** Loops *)

Fixpoint while {S : Type} (fuel : nat) (cond : S → bool) (body : S → S)
  (s : S) : option S :=
  match fuel with
  | O => None
  | Datatypes.S fuel' =>
      if cond s then while fuel' cond body (body s) else Some s
  end.

(** ** makeBucketNames *)

Inductive Interval : Type := day.

(** [currentDate.add(1, interval)] *)
Definition addInterval (i : Interval) (m : Moment) : Moment :=
  match i with day => addDay m end.

Definition makeBucketNames (fuel : nat) (interval : Interval)
  (startDate endDate : Moment) : option (list string) :=
  fst <$> while fuel
    (λ '(names, currentDate), isSameOrBefore currentDate endDate)
    (λ '(names, currentDate),
       (names ++ [travellerKey currentDate], addInterval interval currentDate))
    ([], startDate).

(** ** Transactions (src/parser: the fields that are read here) *)

(** A line of a transaction either has an [account] field or is a comment. *)
Inductive Line : Type :=
  | CommentLine (comment : string)
  | AccountLine (account dealiasedAccount : string) (amount : Z).

(** [date] is [window.moment(tx.value.date)], the day of the transaction. *)
Record TransactionValue : Type :=
  mkValue { date : Moment; expenselines : list Line }.

Record EnhancedTransaction : Type := mkTx { value : TransactionValue }.

(** Modelled from the spec: getWithDefault of src/generic-utils, which is
    not among the sources: a mutating lookup that inserts a default value
    when the key is absent. It returns the value and the map after the
    call. The callers pass the default as a value ([[]]) or as a function
    that makes it; the model takes the value. *)
Definition getWithDefault `{Countable K} {V : Type} (m : gmap K V) (key : K)
  (defaultValue : V) : V * gmap K V :=
  match m !! key with
  | Some v => (v, m)
  | None => (defaultValue, <[key := defaultValue]> m)
  end.

(** [getWithDefault(m, key, []).push(x)]: the array that is extended is the
    one the map holds. *)
Definition pushWithDefault `{Countable K} {V : Type} (m : gmap K (list V))
  (key : K) (x : V) : gmap K (list V) :=
  let '(arr, m') := getWithDefault m key [] in <[key := arr ++ [x]]> m'.

(** ** bucketTransactions *)

(** The [for ... of] loop with its [break]; [a > b] on strings is
    [String.ltb b a]. *)
Fixpoint scanBuckets (bucketNames : list string) (txTravellerDate : string)
  (targetBucket : option string) : option string :=
  match bucketNames with
  | [] => targetBucket
  | bucketName :: rest =>
      if String.ltb txTravellerDate bucketName then targetBucket
      else scanBuckets rest txTravellerDate (Some bucketName)
  end.

(** [bucketNames[0]] is [undefined] ([None]) on an empty array, and the
    [Map] accepts it as a key. *)
Definition targetBucketOf (bucketNames : list string)
  (tx : EnhancedTransaction) : option string :=
  let txDate := date (value tx) in
  let txTravellerDate := travellerKey txDate in
  scanBuckets bucketNames txTravellerDate (head bucketNames).

Definition bucketTransactions (bucketNames : list string)
  (txs : list EnhancedTransaction)
  : gmap (option string) (list EnhancedTransaction) :=
  let buckets :=
    foldl (λ buckets name, <[Some name := []]> buckets) ∅ bucketNames in
  foldl (λ buckets tx, pushWithDefault buckets (targetBucketOf bucketNames tx) tx)
    buckets txs.

(** ** Chart series *)

Record ISettings : Type :=
  mkSettings { assetAccountsPrefix : string; liabilityAccountsPrefix : string }.

(** The arithmetic of the amounts and of the balances: [0], [+], [-] and
    the test that [||] makes of a number. *)
Class Number (A : Type) : Type := mkNumber {
  nzero : A;
  nadd : A → A → A;
  nsub : A → A → A;
  falsy : A → bool
}.

(** The numbers of JavaScript: IEEE 754 doubles, whose sums and
    differences are rounded to the nearest double. [0], [-0] and [NaN] are
    falsy. *)
Global Instance double_Number : Number float | 10 :=
  {| nzero := 0%float;
     nadd := PrimFloat.add;
     nsub := PrimFloat.sub;
     falsy v := PrimFloat.eqb v 0 || PrimFloat.is_nan v |}.

(** Exact integers: amounts in minor units that are added without
    rounding. *)
Global Instance exact_Number : Number Z | 0 :=
  {| nzero := 0; nadd := Z.add; nsub := Z.sub; falsy n := n =? 0 |}.

(** An element of [ChartData]. *)
Record Point (A : Type) : Type := mkPoint { x : string; y : A }.

Global Arguments mkPoint {A} x y.
Global Arguments x {A} p.
Global Arguments y {A} p.

(** [s.startsWith(p)] *)
Definition startsWith (s p : string) : bool := String.prefix p s.

(** [v || 0] on a number that may be [undefined]. *)
Definition orZero `{Number A} (v : option A) : A :=
  match v with
  | Some n => if falsy n then nzero else n
  | None => nzero
  end.

Definition calcNetWorth (balanceData : gmap string Z) (settings : ISettings)
  : Z :=
  foldl (λ accum '(acct, bal),
           if startsWith acct (assetAccountsPrefix settings)
              || startsWith acct (liabilityAccountsPrefix settings)
           then accum + bal
           else accum)
    0 (map_to_list balanceData).

Definition makeNetWorthData (dailyAccountBalanceMap : gmap string (gmap string Z))
  (bucketNames : list string) (settings : ISettings) : list (Point Z) :=
  (λ bucket,
     let balanceData := dailyAccountBalanceMap !! bucket in
     let netWorth :=
       match balanceData with
       | Some balanceData => calcNetWorth balanceData settings
       | None => 0
       end in
     {| x := bucket; y := netWorth |}) <$> bucketNames.

Definition findChildAccounts (account : string) (accounts : list string)
  : list string :=
  filter (λ candidate, startsWith candidate (String.app account ":")) accounts.

Definition makeBalanceData `{Number A}
  (dailyAccountBalanceMap : gmap string (gmap string A))
  (bucketNames : list string) (account : string) (allAccounts : list string)
  : list (Point A) :=
  let accounts := findChildAccounts account allAccounts ++ [account] in
  (λ bucket,
     let accountBalances := dailyAccountBalanceMap !! bucket in
     let balance :=
       foldl (λ prev currentAccount,
                nadd (orZero (accountBalances ≫= (.!! currentAccount))) prev)
         nzero accounts in
     {| x := bucket; y := balance |}) <$> bucketNames.

Definition makeDeltaData `{Number A}
  (dailyAccountBalanceMap : gmap string (gmap string A))
  (bucketBefore : string) (bucketNames : list string) (account : string)
  (allAccounts : list string) : list (Point A) :=
  let accounts := findChildAccounts account allAccounts ++ [account] in
  imap (λ i bucket,
     let prevBucket :=
       match i with
       | O => Some bucketBefore
       | Datatypes.S i' => bucketNames !! i'
       end in
     let accountBalances := dailyAccountBalanceMap !! bucket in
     let prevAccountBalances := prevBucket ≫= (dailyAccountBalanceMap !!.) in
     let balance :=
       foldl (λ prev currentAccount,
                let b1 := orZero (prevAccountBalances ≫= (.!! currentAccount)) in
                let b2 := orZero (accountBalances ≫= (.!! currentAccount)) in
                nadd (nsub b2 b1) prev)
         nzero accounts in
     {| x := bucket; y := balance |}) bucketNames.

(** ** removeDuplicateAccounts *)

#[warnings="-register-all"]
Inductive TreeNode : Type :=
  | Node (exists_ : bool) (label : string) (children : list TreeNode).

Record RootNode : Type := mkRoot { rootChildren : list TreeNode }.

Definition nodeExists (n : TreeNode) : bool :=
  match n with Node e _ _ => e end.
Definition nodeLabel (n : TreeNode) : string :=
  match n with Node _ l _ => l end.
Definition nodeChildren (n : TreeNode) : list TreeNode :=
  match n with Node _ _ c => c end.

(** [s.split(':')]: never empty, [''] for the empty string. *)
Fixpoint split (sep : ascii) (s : string) : list string :=
  match s with
  | EmptyString => [EmptyString]
  | String c s' =>
      if Ascii.eqb c sep then EmptyString :: split sep s'
      else match split sep s' with
           | seg :: segs => String c seg :: segs
           | [] => [String c EmptyString]
           end
  end.

(** [[path, label].join(':')] *)
Definition joinPath (path label : string) : string :=
  String.app path (String.app ":" label).

(** One pass of the [segments.forEach] callback and the passes after it, on
    the children of the current [parentNode]: the child labelled [segment]
    is looked up with [find] (the first one), created at the end when
    there is none, marked when the path ends at it, and becomes the parent
    of the next segment. *)
Fixpoint insertSegments (segments : list string) (children : list TreeNode)
  : list TreeNode :=
  match segments with
  | [] => children
  | segment :: rest =>
      let lastSegment := match rest with [] => true | _ => false end in
      (fix find (cs : list TreeNode) : list TreeNode :=
         match cs with
         | [] => [Node lastSegment segment (insertSegments rest [])]
         | Node e l ch :: cs' =>
             if String.eqb l segment
             then Node (if lastSegment then true else e) l
                    (insertSegments rest ch) :: cs'
             else Node e l ch :: find cs'
         end) children
  end.

Definition buildTree (input : list string) : RootNode :=
  foldl (λ tree path,
           mkRoot (insertSegments (split ":" path) (rootChildren tree)))
    (mkRoot []) input.

(** [renderTree] at a node that has a label. [path ? ... : ...] takes the
    second branch when [path] is [undefined] and when it is the empty
    string. *)
Fixpoint renderNode (output : list string) (node : TreeNode)
  (path : option string) : list string :=
  match node with
  | Node e label children =>
      let newPath :=
        match path with
        | Some (String _ _ as p) => joinPath p label
        | _ => label
        end in
      let output :=
        if negb (length children =? 1)%nat && e then output ++ [newPath]
        else output in
      foldl (λ output child, renderNode output child (Some newPath))
        output children
  end.

Definition renderTree (output : list string) (node : RootNode + TreeNode)
  (path : option string) : list string :=
  match node with
  | inr n => renderNode output n path
  | inl root =>
      foldl (λ output child, renderNode output child None)
        output (rootChildren root)
  end.

Definition removeDuplicateAccounts (input : list string) : list string :=
  let tree := buildTree input in
  renderTree [] (inl tree) None.

(** ** The sparse and the dense balance maps *)


Definition makeDailyBalanceMap (fuel : nat) (accounts : list string)
  (input : gmap string (gmap string Z)) (firstDate lastDate : Moment)
  : option (gmap string (gmap string Z)) :=
  let previousData : gmap string Z :=
    foldl (λ previousData accountName, <[accountName := 0]> previousData)
      ∅ accounts in
  (λ st, st.1.1) <$> while fuel
    (λ '(result, previousData, currentDate),
       isSameOrBefore currentDate lastDate)
    (λ '(result, previousData, currentDate),
       let currentDateStr := travellerKey currentDate in
       match input !! currentDateStr with
       | Some innerInputMap =>
           let innerResultMap : gmap string Z :=
             foldl (λ innerResultMap accountName,
                      let previousValue := orZero (previousData !! accountName) in
                      let currentValue := orZero (innerInputMap !! accountName) in
                      <[accountName := previousValue + currentValue]>
                        innerResultMap)
               ∅ accounts in
           (<[currentDateStr := innerResultMap]> result, innerResultMap,
            addDay currentDate)
       | None =>
           (<[currentDateStr := previousData]> result, previousData,
            addDay currentDate)
       end)
    (∅, previousData, firstDate).

(** ** The date range selector *)

(** [m.subtract(1, 'day')] *)
Definition subDay (m : Moment) : Moment :=
  if 1 <? dayOfYear m
  then momentAt (year m) (dayOfYear m - 1) (timeOfDay m)
  else momentAt (year m - 1) (daysInYear (year m - 1)) (timeOfDay m).

(** [m.subtract(n, 'days')] *)
Definition subDays (n : nat) (m : Moment) : Moment := Nat.iter n subDay m.

(** What a validation does to the outside: the notice it shows and the
    date it hands to the setter it was given. *)
Inductive Effect : Type :=
  | Notice (message : string)
  | SetDate (d : Moment).

(** [maxDays] is [interval === 'day' ? 15 : 15]; the test is
    [endDate.dayOfYear() - startDate.dayOfYear() > maxDays], on the days of
    the year alone; the setter gets
    [endDate.clone().subtract(maxDays, 'days')]. *)
Definition validateAndUpdateStartDate (interval : Interval)
  (startDate endDate : Moment) : list Effect :=
  let maxDays := match interval with day => 15 end in
  if maxDays <? dayOfYear endDate - dayOfYear startDate
  then [Notice "Exceeded maximum time window. Adjusting start date.";
        SetDate (subDays (Z.to_nat maxDays) endDate)]
  else [].

(** The same test; the setter gets [startDate.clone().add(maxDays, 'days')]. *)
Definition validateAndUpdateEndDate (interval : Interval)
  (startDate endDate : Moment) : list Effect :=
  let maxDays := match interval with day => 15 end in
  if maxDays <? dayOfYear endDate - dayOfYear startDate
  then [Notice "Exceeded maximum time window. Adjusting end date.";
        SetDate (addDays (Z.to_nat maxDays) startDate)]
  else [].

(** * Specification *)

(** The vocabulary of the statements below. *)

(** ** Accounts and sums *)

(** [p] is a prefix of [s]. *)
Definition hasPrefix (p s : string) : Prop := ∃ rest, s = String.app p rest.

(** A candidate is a descendant of [account] when it is [account], a colon
    and anything. *)
Definition isDescendant (account candidate : string) : Prop :=
  ∃ rest, candidate = String.app account (String.app ":" rest).

(** The accounts that count towards the net worth: plain string prefix. *)
Definition isNetWorthAccount (settings : ISettings) (acct : string) : Prop :=
  hasPrefix (assetAccountsPrefix settings) acct
  ∨ hasPrefix (liabilityAccountsPrefix settings) acct.

(** The sum of a list of amounts. *)
Definition sumZ (l : list Z) : Z := foldr Z.add 0 l.

(** ** The sparse map *)




(** A list of changes is only stored once it has an element. *)
Definition nonEmpty {A : Type} (l : list A) : option (list A) :=
  match l with [] => None | _ => Some l end.

(** ** Buckets *)


(** Days of years of four digits, in the order of the calendar. *)
Definition chronological (a b : Moment) : Prop :=
  (validMoment a ∧ 1000 ≤ year a ≤ 9999)
  ∧ (validMoment b ∧ 1000 ≤ year b ≤ 9999)
  ∧ dayNumber a ≤ dayNumber b.

(** ** The dense map *)

(** A run of consecutive days that starts at [firstDate], at its time of
    day. *)
Definition dayRun (firstDate : Moment) (ds : list Moment) : Prop :=
  ∀ i d, ds !! i = Some d →
    validMoment d ∧ dayNumber d = dayNumber firstDate + Z.of_nat i
    ∧ timeOfDay d = timeOfDay firstDate.

(** All accounts start with a balance of 0. *)
Definition seedBalances (accounts : list string) : gmap string Z :=
  foldl (λ previousData accountName, <[accountName := 0]> previousData)
    ∅ accounts.

(** The forward fill of one day: without an entry in the sparse map the
    balances are those of the day before; with one, every tracked account
    moves by its delta (0 when it has none). *)
Definition filledFrom (accounts : list string)
  (input : gmap string (gmap string Z)) (d : Moment)
  (prev cur : gmap string Z) : Prop :=
  match input !! travellerKey d with
  | None => cur = prev
  | Some delta =>
      ∀ a, a ∈ accounts →
        cur !! a = Some (default 0 (prev !! a) + default 0 (delta !! a))
  end.

(** The balances before the day at position [i]: the seed for the first
    day, the entry of the day before for the others. *)
Definition previousBalances (accounts : list string)
  (dense : gmap string (gmap string Z)) (ds : list Moment) (i : nat)
  (prev : gmap string Z) : Prop :=
  match i with
  | O => prev = seedBalances accounts
  | S j => ∃ d', ds !! j = Some d' ∧ dense !! travellerKey d' = Some prev
  end.

(** ** The account tree *)

(** The nodes of a subtree in depth-first pre-order, children in their
    order, each with the labels on the way from the root to it. *)
Fixpoint nodesFrom (prefix : list string) (n : TreeNode)
  : list (list string * TreeNode) :=
  match n with
  | Node e label children =>
      (prefix ++ [label], n) :: (children ≫= nodesFrom (prefix ++ [label]))
  end.

(** A node is emitted when its child count is not 1 and a path ends at it. *)
Definition isEmitted (n : TreeNode) : Prop :=
  length (nodeChildren n) ≠ 1%nat ∧ nodeExists n = true.

Global Instance isEmitted_dec n : Decision (isEmitted n).
Proof. unfold isEmitted. apply _. Defined.

(** The colon-joined paths of the emitted nodes of a list of nodes. *)
Definition renderedPaths (nodes : list (list string * TreeNode)) : list string :=
  (λ pn, String.concat ":" pn.1) <$> filter (λ pn, isEmitted pn.2) nodes.

(** The path that renderTree hands down is the colon-joined path of the
    labels as long as it is not the empty string. *)
Definition pathOf (prefix : list string) (path : option string) : Prop :=
  match prefix with
  | [] => path = None
  | _ => path = Some (String.concat ":" prefix)
         ∧ String.concat ":" prefix ≠ EmptyString
  end.

(** The nodes of the whole tree. *)
Definition treeNodes (children : list TreeNode) : list (list string * TreeNode) :=
  children ≫= nodesFrom [].

(** [children.find(({ label }) => label === segment)] *)
Fixpoint findChild (segment : string) (children : list TreeNode)
  : option TreeNode :=
  match children with
  | [] => None
  | c :: cs => if String.eqb (nodeLabel c) segment then Some c
               else findChild segment cs
  end.

(** The node that the segments of a path lead to. *)
Fixpoint findNode (children : list TreeNode) (path : list string)
  : option TreeNode :=
  match path with
  | [] => None
  | segment :: rest =>
      match findChild segment children with
      | None => None
      | Some n =>
          match rest with
          | [] => Some n
          | _ => findNode (nodeChildren n) rest
          end
      end
  end.

(** [segments.length === i + 1] at the segment before [rest]. *)
Definition isLast (rest : list string) : bool :=
  match rest with [] => true | _ => false end.

(** Whether a path ends at the node that [path] leads to. *)
Definition existsAt (children : list TreeNode) (path : list string)
  : option bool :=
  nodeExists <$> findNode children path.

(** ** Decimal strings *)

(** [c] occurs in [s]. *)
Fixpoint charIn (c : ascii) (s : string) : Prop :=
  match s with
  | EmptyString => False
  | String a s' => a = c ∨ charIn c s'
  end.

(** The [k] low decimal digits of [x] before [s], high digits first. *)
Fixpoint digitsAcc (k : nat) (x : N) (s : string) : string :=
  match k with
  | O => s
  | S k' => digitsAcc k' (x `div` 10)%N (String (pretty_N_char (x `mod` 10)%N) s)
  end.

(** [x] on [k] decimal digits, with leading zeros. *)
Definition digits (k : nat) (x : N) : string := digitsAcc k x EmptyString.

(** ** The bodies of the loops, by name *)



(** The balances of a day that has an entry in the sparse map. *)
Definition rollAccounts (accounts : list string)
  (previousData innerInputMap : gmap string Z) : gmap string Z :=
  foldl (λ innerResultMap accountName,
           let previousValue := orZero (previousData !! accountName) in
           let currentValue := orZero (innerInputMap !! accountName) in
           <[accountName := previousValue + currentValue]> innerResultMap)
    ∅ accounts.

(** One pass of the [while] loop of makeDailyBalanceMap, on the state
    [(result, previousData)]. *)
Definition rollDay (accounts : list string) (input : gmap string (gmap string Z))
  (st : gmap string (gmap string Z) * gmap string Z) (currentDate : Moment)
  : gmap string (gmap string Z) * gmap string Z :=
  let currentDateStr := travellerKey currentDate in
  match input !! currentDateStr with
  | Some innerInputMap =>
      let innerResultMap := rollAccounts accounts st.2 innerInputMap in
      (<[currentDateStr := innerResultMap]> st.1, innerResultMap)
  | None => (<[currentDateStr := st.2]> st.1, st.2)
  end.

(** ** The examples of the specification *)

(** A transaction on day [d] of 2023, without lines. *)
Definition txOn (d : Z) : EnhancedTransaction :=
  mkTx (mkValue (mkMoment 2023 d) []).

(** Balances 50, 70 and 65 after a balance of 40 at the bucket before. *)
Definition deltaExample : gmap string (gmap string float) :=
  {[ "2023.099"%string := {[ "Assets:Bank"%string := 40%float ]};
     "2023.100"%string := {[ "Assets:Bank"%string := 50%float ]};
     "2023.101"%string := {[ "Assets:Bank"%string := 70%float ]};
     "2023.102"%string := {[ "Assets:Bank"%string := 65%float ]} ]}.

(** An account and a descendant with balances of one decimal: the account
    moves from 0.1 to 0.2, the descendant stays at 0.1. *)
#[warnings="-inexact-float"]
Definition roundingExample : gmap string (gmap string float) :=
  {[ "2023.099"%string :=
       {[ "Assets:Bank"%string := 0.1%float; "Assets"%string := 0.1%float ]};
     "2023.100"%string :=
       {[ "Assets:Bank"%string := 0.1%float; "Assets"%string := 0.2%float ]} ]}.

(** The same with whole numbers: the descendant stays at 2^53, the
    account moves from 0 to 1. *)
Definition largeExample : gmap string (gmap string float) :=
  {[ "2023.099"%string :=
       {[ "Assets:Bank"%string := 9007199254740992%float;
          "Assets"%string := 0%float ]};
     "2023.100"%string :=
       {[ "Assets:Bank"%string := 9007199254740992%float;
          "Assets"%string := 1%float ]} ]}.

(** ** The vocabulary of the further properties *)

(** The number of transactions that a bucket map holds. *)
Definition bucketedCount `{Countable K} {V : Type} (m : gmap K (list V))
  : nat :=
  map_fold (λ _ bucket n, length bucket + n)%nat 0%nat m.


(** The delta that the sparse map books on an account on a day, 0 when it
    books none. *)
Definition deltaOn (input : gmap string (gmap string Z)) (a : string)
  (d : Moment) : Z :=
  default 0 (input !! travellerKey d ≫= (.!! a)).

(** The deltas of an account over a list of days, added up from 0 day
    after day. *)
Definition runningTotal (input : gmap string (gmap string Z)) (a : string)
  (ds : list Moment) : Z :=
  foldl (λ total d, total + deltaOn input a d) 0 ds.

(** The number of the last day that a loop from [s] to [e] visits: the day
    of [e], or the day before it when [s] is later in the day than [e]. *)
Definition lastLoopDay (s e : Moment) : Z :=
  dayNumber e - (if timeOfDay s <=? timeOfDay e then 0 else 1).

(** The date of the range after a validation: the date that was set, or
    the old one when none was. *)
Definition dateAfter (effects : list Effect) (old : Moment) : Moment :=
  foldl (λ d effect, match effect with SetDate d' => d' | Notice _ => d end)
    old effects.

(** The labels of the children of every node are pairwise distinct. *)
#[warnings="-register-all"]
Inductive wfNode : TreeNode → Prop :=
  | wfNode_intro e l ch :
      NoDup (nodeLabel <$> ch) → Forall wfNode ch → wfNode (Node e l ch).

(** The segments that follow [path] in the input paths, each once. *)
Definition childSegments (input : list string) (path : list string)
  : list string :=
  remove_dups
    (omap (λ p, if decide (path `prefix_of` split ":" p)
                then split ":" p !! length path else None) input).

(** * Proofs *)

(** ** The calendar *)

Section calendar.

Lemma daysInYear_cases y : daysInYear y = 365 ∨ daysInYear y = 366.
Proof. unfold daysInYear. destruct (isLeapYear y); auto. Qed.

Lemma daysBeforeYear_succ y :
  daysBeforeYear (y + 1) = daysBeforeYear y + daysInYear y.
Proof.
  unfold daysBeforeYear, daysInYear, isLeapYear.
  replace (y + 1 - 1) with y by lia.
  destruct (Z.eqb_spec (y mod 4) 0), (Z.eqb_spec (y mod 100) 0),
    (Z.eqb_spec (y mod 400) 0); simpl; Z.to_euclidean_division_equations; lia.
Qed.

Lemma daysBeforeYear_mono y1 y2 :
  y1 ≤ y2 → daysBeforeYear y1 ≤ daysBeforeYear y2.
Proof.
  unfold daysBeforeYear. intros. Z.to_euclidean_division_equations. lia.
Qed.

Lemma addDay_valid m : validMoment m → validMoment (addDay m).
Proof.
  unfold validMoment, addDay. intros Hm.
  destruct (Z.ltb_spec (dayOfYear m) (daysInYear (year m))); simpl.
  - lia.
  - destruct (daysInYear_cases (year m + 1)); lia.
Qed.

Lemma dayNumber_addDay m :
  validMoment m → dayNumber (addDay m) = dayNumber m + 1.
Proof.
  unfold validMoment, addDay, dayNumber. intros Hm.
  destruct (Z.ltb_spec (dayOfYear m) (daysInYear (year m))); simpl.
  - lia.
  - rewrite daysBeforeYear_succ. lia.
Qed.

Lemma timeOfDay_addDay m : timeOfDay (addDay m) = timeOfDay m.
Proof. unfold addDay. by destruct (_ <? _). Qed.

Lemma valueOf_addDay m :
  validMoment m → valueOf (addDay m) = valueOf m + msPerDay.
Proof.
  intros Hm. unfold valueOf.
  rewrite dayNumber_addDay, timeOfDay_addDay by done. unfold msPerDay. lia.
Qed.

(** Days of an earlier year come before the days of a later one. *)
Lemma dayNumber_year_lt a b :
  validMoment a → validMoment b → year a < year b → dayNumber a < dayNumber b.
Proof.
  unfold validMoment, dayNumber. intros Ha Hb Hy.
  pose proof (daysBeforeYear_succ (year a)).
  pose proof (daysBeforeYear_mono (year a + 1) (year b)). lia.
Qed.

Lemma isSameOrBefore_valueOf a b :
  isSameOrBefore a b = bool_decide (valueOf a ≤ valueOf b).
Proof.
  unfold isSameOrBefore. destruct (Z.leb_spec (valueOf a) (valueOf b));
    symmetry; [apply bool_decide_eq_true|apply bool_decide_eq_false]; lia.
Qed.

(** The order of the instants is the order of the days, and within a day
    the order of the times. *)
Lemma valueOf_le a b :
  validMoment a → validMoment b →
  valueOf a ≤ valueOf b
  ↔ dayNumber a < dayNumber b
    ∨ (dayNumber a = dayNumber b ∧ timeOfDay a ≤ timeOfDay b).
Proof. unfold validMoment, valueOf, msPerDay. lia. Qed.

(** Two valid moments with the same day number are on the same day. *)
Lemma dayNumber_inj a b :
  validMoment a → validMoment b → dayNumber a = dayNumber b →
  year a = year b ∧ dayOfYear a = dayOfYear b.
Proof.
  intros Ha Hb Heq.
  destruct (Z.lt_total (year a) (year b)) as [Hlt|[Hy|Hlt]].
  - pose proof (dayNumber_year_lt a b Ha Hb Hlt). lia.
  - unfold dayNumber in Heq. rewrite Hy in Heq. lia.
  - pose proof (dayNumber_year_lt b a Hb Ha Hlt). lia.
Qed.

Lemma moment_eq a b :
  validMoment a → validMoment b →
  dayNumber a = dayNumber b → timeOfDay a = timeOfDay b → a = b.
Proof.
  intros Ha Hb Hn Ht. destruct (dayNumber_inj a b Ha Hb Hn) as [Hy Hd].
  destruct a, b. simpl in *. by subst.
Qed.

Lemma addDays_valid n m : validMoment m → validMoment (addDays n m).
Proof.
  intros Hm. induction n as [|n IH]; simpl; [done|]. by apply addDay_valid.
Qed.

Lemma dayNumber_addDays n m :
  validMoment m → dayNumber (addDays n m) = dayNumber m + Z.of_nat n.
Proof.
  intros Hm. induction n as [|n IH]; simpl; [lia|].
  rewrite dayNumber_addDay by by apply addDays_valid. lia.
Qed.

Lemma timeOfDay_addDays n m : timeOfDay (addDays n m) = timeOfDay m.
Proof.
  induction n as [|n IH]; simpl; [done|]. by rewrite timeOfDay_addDay.
Qed.

Lemma valueOf_addDays n m :
  validMoment m → valueOf (addDays n m) = valueOf m + Z.of_nat n * msPerDay.
Proof.
  intros Hm. unfold valueOf.
  rewrite dayNumber_addDays, timeOfDay_addDays by done. unfold msPerDay. lia.
Qed.

Lemma addDays_addDay n m : addDays n (addDay m) = addDays (S n) m.
Proof. unfold addDays. by rewrite Nat.iter_succ_r. Qed.

Lemma length_loopDays s e :
  length (loopDays s e)
  = Z.to_nat ((valueOf e - valueOf s) `div` msPerDay + 1).
Proof. unfold loopDays. by rewrite length_fmap, length_seq. Qed.

(** The loop reaches the day of [e] when the time of day of [s] is not
    later than that of [e], and stops on the day before it otherwise. *)
Lemma loopDays_count s e :
  validMoment s → validMoment e →
  (valueOf e - valueOf s) `div` msPerDay
  = dayNumber e - dayNumber s
    - (if timeOfDay s <=? timeOfDay e then 0 else 1).
Proof.
  unfold validMoment, valueOf, msPerDay. intros Hs He.
  destruct (Z.leb_spec (timeOfDay s) (timeOfDay e));
    Z.to_euclidean_division_equations; lia.
Qed.

Lemma loopDays_nil s e : valueOf e < valueOf s → loopDays s e = [].
Proof.
  intros Hlt. unfold loopDays.
  replace (Z.to_nat ((valueOf e - valueOf s) `div` msPerDay + 1)) with O;
    [done|].
  unfold msPerDay. Z.to_euclidean_division_equations. lia.
Qed.

Lemma loopDays_cons s e :
  validMoment s → valueOf s ≤ valueOf e →
  loopDays s e = s :: loopDays (addDay s) e.
Proof.
  intros Hs Hle. unfold loopDays. rewrite valueOf_addDay by done.
  replace (Z.to_nat ((valueOf e - valueOf s) `div` msPerDay + 1))
    with (S (Z.to_nat ((valueOf e - (valueOf s + msPerDay)) `div` msPerDay
                       + 1)))
    by (unfold msPerDay; Z.to_euclidean_division_equations; lia).
  simpl. f_equal. rewrite <- fmap_S_seq, <- list_fmap_compose.
  apply list_fmap_ext. intros i n _. simpl. by rewrite addDays_addDay.
Qed.

(** The moments of the loop are [s] and whole days after it, as long as
    they are not after [e], in order and without gaps. *)
Lemma loopDays_lookup s e i d :
  validMoment s →
  loopDays s e !! i = Some d ↔ d = addDays i s ∧ valueOf d ≤ valueOf e.
Proof.
  intros Hs. unfold loopDays. rewrite list_lookup_fmap. split.
  - intros Hi. destruct (seq _ _ !! i) as [j|] eqn:Hj; simplify_eq/=.
    apply lookup_seq in Hj as [-> Hlt]. simpl. split; [done|].
    rewrite valueOf_addDays by done. revert Hlt. unfold msPerDay.
    intros Hlt. Z.to_euclidean_division_equations. lia.
  - intros [-> Hle]. rewrite valueOf_addDays in Hle by done.
    rewrite (lookup_seq_lt _ _ i); [done|]. revert Hle. unfold msPerDay.
    intros Hle. Z.to_euclidean_division_equations. lia.
Qed.

Lemma loopDays_lookup_day s e i d :
  validMoment s → loopDays s e !! i = Some d →
  validMoment d ∧ dayNumber d = dayNumber s + Z.of_nat i
  ∧ timeOfDay d = timeOfDay s.
Proof.
  intros Hs [-> _]%loopDays_lookup; [|done].
  split; [by apply addDays_valid|].
  split; [by apply dayNumber_addDays|apply timeOfDay_addDays].
Qed.

Lemma elem_of_loopDays s e d :
  validMoment s →
  d ∈ loopDays s e ↔ ∃ i, d = addDays i s ∧ valueOf d ≤ valueOf e.
Proof.
  intros Hs. rewrite list_elem_of_lookup.
  split; intros [i Hi]; exists i; by apply loopDays_lookup.
Qed.

End calendar.

(** ** Loops over the days of a range *)

Section loops.
Context {S : Type}.

Lemma while_ext fuel (cond cond' : S → bool) (body body' : S → S) s :
  (∀ s, cond s = cond' s) → (∀ s, body s = body' s) →
  while fuel cond body s = while fuel cond' body' s.
Proof.
  intros Hc Hb. revert s. induction fuel as [|fuel IH]; intros s; simpl.
  - done.
  - rewrite Hc, Hb. destruct (cond' s); [apply IH|done].
Qed.

(** A loop that walks [currentDate] from a moment to [endDate] runs its
    body once for each moment of the loop, in order, and then stops. *)
Lemma while_loopDays (step : S → Moment → S) (endDate : Moment) fuel :
  ∀ currentDate st,
    validMoment currentDate →
    (length (loopDays currentDate endDate) < fuel)%nat →
    while fuel (λ p, isSameOrBefore p.2 endDate)
      (λ p, (step p.1 p.2, addDay p.2)) (st, currentDate)
    = Some (foldl step st (loopDays currentDate endDate),
            addDays (length (loopDays currentDate endDate)) currentDate).
Proof.
  induction fuel as [|fuel IH]; intros cur st Hcur Hfuel; [lia|].
  simpl. rewrite isSameOrBefore_valueOf. case_bool_decide as Hle.
  - rewrite (loopDays_cons cur endDate) in * by done. simpl in *.
    rewrite IH; [|by apply addDay_valid|lia].
    by rewrite addDays_addDay.
  - rewrite loopDays_nil by lia. done.
Qed.

End loops.

(** ** Decimal strings and keys *)

Lemma string_app_cons c s t : String.app (String c s) t = String c (String.app s t).
Proof. reflexivity. Qed.

Lemma string_app_assoc s t u :
  String.app (String.app s t) u = String.app s (String.app t u).
Proof.
  induction s as [|c s IH]; [done|]. by rewrite !string_app_cons, IH.
Qed.

Lemma string_app_nil_l s : String.app EmptyString s = s.
Proof. reflexivity. Qed.

Lemma charIn_app c s t : charIn c (String.app s t) ↔ charIn c s ∨ charIn c t.
Proof.
  induction s as [|a s IH]; [simpl; tauto|].
  rewrite string_app_cons. simpl. rewrite IH. tauto.
Qed.

Lemma pretty_N_char_not_dot x : pretty_N_char x ≠ "."%char.
Proof. unfold pretty_N_char. by repeat case_match. Qed.

Lemma pretty_N_go_no_dot x s :
  ¬ charIn "." s → ¬ charIn "." (pretty_N_go x s).
Proof.
  revert s. induction (N.lt_wf_0 x) as [x _ IH]; intros s Hs.
  assert (x = 0 ∨ 0 < x)%N as [->|Hx] by lia.
  - by rewrite pretty_N_go_0.
  - rewrite pretty_N_go_step by done. apply IH.
    + by apply N.div_lt.
    + simpl. intros [Hc|Hc]; [by apply pretty_N_char_not_dot in Hc|done].
Qed.

Lemma toString_no_dot n : ¬ charIn "." (toString n).
Proof.
  assert (∀ p, ¬ charIn "." (pretty (Npos p))) as Hpos.
  { intros p. unfold pretty, pretty_N. case_decide; [done|].
    apply pretty_N_go_no_dot. simpl. tauto. }
  unfold toString, pretty, pretty_Z. destruct n as [|p|p].
  - simpl. intros [?|[]]. done.
  - apply Hpos.
  - rewrite charIn_app. intros [Hc|Hc]; [|by apply Hpos in Hc].
    simpl in Hc. destruct Hc as [?|[]]. done.
Qed.

(** A string without a dot, a dot and a rest: the parts can be read back. *)
Lemma app_dot_inj s1 s2 t1 t2 :
  ¬ charIn "." s1 → ¬ charIn "." s2 →
  String.app s1 (String "." t1) = String.app s2 (String "." t2) →
  s1 = s2 ∧ t1 = t2.
Proof.
  revert s2. induction s1 as [|a s1 IH]; intros [|b s2] H1 H2 Heq;
    rewrite ?string_app_cons, ?string_app_nil_l in Heq; simpl in *.
  - by simplify_eq.
  - simplify_eq. destruct H2. by left.
  - simplify_eq. destruct H1. by left.
  - injection Heq as -> Heq. apply IH in Heq as [-> ->]; tauto.
Qed.

(** *** Decimal digits *)

Lemma pretty_N_go_digits k : ∀ x s,
  (x < 10 ^ N.of_nat k)%N → (k = O ∨ 10 ^ N.of_nat (k - 1) ≤ x)%N →
  pretty_N_go x s = digitsAcc k x s.
Proof.
  induction k as [|k IH]; intros x s Hlt Hge.
  - simpl in *. assert (x = 0%N) as -> by lia. apply pretty_N_go_0.
  - destruct Hge as [?|Hge]; [done|].
    replace (S k - 1)%nat with k in Hge by lia.
    assert (0 < 10 ^ N.of_nat k)%N by (apply N.neq_0_lt_0, N.pow_nonzero; lia).
    rewrite pretty_N_go_step by lia. simpl. apply IH.
    + apply N.Div0.div_lt_upper_bound.
      replace (N.of_nat (S k)) with (N.succ (N.of_nat k)) in Hlt by lia.
      by rewrite N.pow_succ_r' in Hlt.
    + destruct k as [|k]; [by left|right].
      replace (S k - 1)%nat with k by lia.
      replace (N.of_nat (S k)) with (N.succ (N.of_nat k)) in Hge by lia.
      rewrite N.pow_succ_r' in Hge.
      apply N.div_le_lower_bound; [done|lia].
Qed.

Lemma digitsAcc_app k : ∀ x s, digitsAcc k x s = String.app (digits k x) s.
Proof.
  unfold digits. induction k as [|k IH]; intros x s; simpl; [done|].
  rewrite IH, (IH _ (String _ EmptyString)), string_app_assoc. done.
Qed.

Lemma digits_S k x :
  digits (S k) x
  = String.app (digits k (x `div` 10)%N)
      (String (pretty_N_char (x `mod` 10)%N) EmptyString).
Proof. unfold digits at 1. simpl. apply digitsAcc_app. Qed.

Lemma string_length_app s t :
  String.length (String.app s t) = (String.length s + String.length t)%nat.
Proof.
  induction s as [|c s IH]; [done|]. rewrite string_app_cons. simpl. lia.
Qed.

Lemma length_digits k x : String.length (digits k x) = k.
Proof.
  revert x. induction k as [|k IH]; intros x; [done|].
  rewrite digits_S, string_length_app, IH. simpl. lia.
Qed.

(** Strings of the same length are compared before what follows them. *)
Lemma compare_app u : ∀ u' v v',
  String.length u = String.length u' →
  String.compare (String.app u v) (String.app u' v')
  = match String.compare u u' with
    | Eq => String.compare v v'
    | c => c
    end.
Proof.
  induction u as [|c u IH]; intros [|c' u'] v v' Hlen; try done.
  rewrite !string_app_cons. simpl in *.
  destruct (Ascii.compare c c'); [apply IH; lia|done..].
Qed.

Lemma compare_digit a b :
  (a < 10)%N → (b < 10)%N →
  Ascii.compare (pretty_N_char a) (pretty_N_char b) = (a ?= b)%N.
Proof.
  intros Ha Hb.
  assert (∀ n, (n < 10)%N → N_of_ascii (pretty_N_char n) = (48 + n)%N) as E.
  { intros n Hn.
    assert (n = 0 ∨ n = 1 ∨ n = 2 ∨ n = 3 ∨ n = 4 ∨ n = 5 ∨ n = 6 ∨ n = 7
            ∨ n = 8 ∨ n = 9)%N as Hc by lia.
    by repeat destruct Hc as [->|Hc]; subst. }
  unfold Ascii.compare. rewrite !E by done.
  destruct (N.compare_spec a b); [subst; apply N.compare_refl|..].
  - apply N.compare_lt_iff. lia.
  - apply N.compare_gt_iff. lia.
Qed.

(** On decimal strings of one width the string order is the order of the
    numbers. *)
Lemma compare_digits k : ∀ a b,
  (a < 10 ^ N.of_nat k)%N → (b < 10 ^ N.of_nat k)%N →
  String.compare (digits k a) (digits k b) = (a ?= b)%N.
Proof.
  induction k as [|k IH]; intros a b Ha Hb.
  - simpl in *. assert (a = 0%N) as -> by lia. by assert (b = 0%N) as -> by lia.
  - replace (N.of_nat (S k)) with (N.succ (N.of_nat k)) in * by lia.
    rewrite N.pow_succ_r' in *.
    rewrite !digits_S, compare_app by by rewrite !length_digits.
    rewrite IH by (apply N.Div0.div_lt_upper_bound; lia). simpl.
    rewrite compare_digit by (apply N.mod_lt; lia).
    clear IH Ha Hb.
    destruct (N.compare_spec (a `div` 10) (b `div` 10)) as [Hq|Hq|Hq].
    + destruct (N.compare_spec (a `mod` 10) (b `mod` 10)) as [Hr|Hr|Hr];
        symmetry;
        [apply N.compare_eq_iff|apply N.compare_lt_iff|apply N.compare_gt_iff];
        zify; Z.to_euclidean_division_equations; lia.
    + symmetry. apply N.compare_lt_iff.
      zify; Z.to_euclidean_division_equations; lia.
    + symmetry. apply N.compare_gt_iff.
      zify; Z.to_euclidean_division_equations; lia.
Qed.

Lemma digits_inj k a b :
  (a < 10 ^ N.of_nat k)%N → (b < 10 ^ N.of_nat k)%N →
  digits k a = digits k b → a = b.
Proof.
  intros Ha Hb Heq. apply N.compare_eq_iff.
  rewrite <- (compare_digits k) by done. rewrite Heq.
  clear. induction (digits k b) as [|c s IH]; [done|]. simpl.
  unfold Ascii.compare. by rewrite N.compare_refl.
Qed.

Lemma digits_lead_zero k : ∀ x,
  (x < 10 ^ N.of_nat k)%N → digits (S k) x = String "0" (digits k x).
Proof.
  induction k as [|k IH]; intros x Hx.
  - simpl in Hx. by assert (x = 0%N) as -> by lia.
  - replace (N.of_nat (S k)) with (N.succ (N.of_nat k)) in Hx by lia.
    rewrite N.pow_succ_r' in Hx.
    rewrite (digits_S (S k)), IH by (apply N.Div0.div_lt_upper_bound; lia).
    by rewrite string_app_cons, <- digits_S.
Qed.

(** A number with exactly [k] decimal digits prints as them. *)
Lemma toString_digits (k : nat) (n : Z) :
  10 ^ Z.of_nat k ≤ n < 10 ^ Z.of_nat (S k) →
  toString n = digits (S k) (Z.to_N n).
Proof.
  intros [Hlo Hhi].
  assert (0 < 10 ^ Z.of_nat k) by (apply Z.pow_pos_nonneg; lia).
  destruct n as [|p|p]; try lia.
  unfold toString, pretty, pretty_Z, pretty, pretty_positive, pretty, pretty_N.
  case_decide; [done|]. simpl Z.to_N.
  rewrite (pretty_N_go_digits (S k)); [done|..].
  - apply N2Z.inj_lt. rewrite N2Z.inj_pow. simpl Z.of_N at 1.
    by rewrite nat_N_Z.
  - right. replace (S k - 1)%nat with k by lia.
    apply N2Z.inj_le. rewrite N2Z.inj_pow. simpl Z.of_N at 2.
    by rewrite nat_N_Z.
Qed.

(** The day of the year is printed on three digits. *)
Lemma dayOfYear_string (d : Z) :
  1 ≤ d ≤ 999 → padStart 3 "0" (toString d) = digits 3 (Z.to_N d).
Proof.
  intros Hd. unfold padStart.
  assert (1 ≤ d < 10 ∨ 10 ≤ d < 100 ∨ 100 ≤ d < 1000) as [H|[H|H]] by lia.
  - rewrite (toString_digits 0) by done. rewrite length_digits. simpl.
    rewrite (digits_lead_zero 2), (digits_lead_zero 1); [done|simpl; lia..].
  - rewrite (toString_digits 1) by done. rewrite length_digits. simpl.
    rewrite (digits_lead_zero 2); [done|simpl; lia].
  - rewrite (toString_digits 2) by done. by rewrite length_digits.
Qed.

Lemma validMoment_dayOfYear m : validMoment m → 1 ≤ dayOfYear m ≤ 999.
Proof.
  unfold validMoment. destruct (daysInYear_cases (year m)); lia.
Qed.

Lemma travellerKey_digits m :
  validMoment m →
  travellerKey m
  = String.app (toString (year m))
      (String "." (digits 3 (Z.to_N (dayOfYear m)))).
Proof.
  intros Hm. unfold travellerKey.
  by rewrite dayOfYear_string by by apply validMoment_dayOfYear.
Qed.

(** Different days have different keys. *)
Lemma travellerKey_inj a b :
  validMoment a → validMoment b → travellerKey a = travellerKey b →
  year a = year b ∧ dayOfYear a = dayOfYear b.
Proof.
  intros Ha Hb. rewrite !travellerKey_digits by done. intros Heq.
  apply app_dot_inj in Heq as [Hy Hd]; [|apply toString_no_dot..].
  apply (inj pretty) in Hy.
  apply validMoment_dayOfYear in Ha, Hb.
  apply digits_inj in Hd; [|simpl; lia..].
  split; [done|lia].
Qed.

(** Moments of one loop are at one time of day: they have the same key
    only when they are the same moment. *)
Lemma travellerKey_inj_time a b :
  validMoment a → validMoment b → timeOfDay a = timeOfDay b →
  travellerKey a = travellerKey b → a = b.
Proof.
  intros Ha Hb Ht [Hy Hd]%travellerKey_inj; [|done..].
  destruct a, b. simpl in *. by subst.
Qed.

(** The order of the days, read off the year and the day of the year. *)
Lemma day_leb_dayNumber a b :
  validMoment a → validMoment b →
  (year a <? year b) || ((year a =? year b) && (dayOfYear a <=? dayOfYear b))
  = bool_decide (dayNumber a ≤ dayNumber b).
Proof.
  intros Ha Hb.
  destruct (Z.ltb_spec (year a) (year b)) as [Hlt|Hge]; simpl.
  - pose proof (dayNumber_year_lt a b Ha Hb Hlt).
    symmetry. apply bool_decide_eq_true. lia.
  - destruct (Z.eqb_spec (year a) (year b)) as [Heq|Hne]; simpl.
    + unfold dayNumber. rewrite Heq.
      destruct (Z.leb_spec (dayOfYear a) (dayOfYear b)); symmetry;
        [apply bool_decide_eq_true | apply bool_decide_eq_false]; lia.
    + assert (year b < year a) as Hlt by lia.
      pose proof (dayNumber_year_lt b a Hb Ha Hlt).
      symmetry. apply bool_decide_eq_false. lia.
Qed.

Lemma compare_cons_same c s t :
  String.compare (String c s) (String c t) = String.compare s t.
Proof. simpl. unfold Ascii.compare. by rewrite N.compare_refl. Qed.

(** For years of four digits the string order of the keys is the order of
    the days. *)
Lemma travellerKey_leb a b :
  validMoment a → validMoment b →
  1000 ≤ year a ≤ 9999 → 1000 ≤ year b ≤ 9999 →
  String.leb (travellerKey a) (travellerKey b)
  = bool_decide (dayNumber a ≤ dayNumber b).
Proof.
  intros Ha Hb Hya Hyb. rewrite <- day_leb_dayNumber by done.
  rewrite !travellerKey_digits by done.
  rewrite !(toString_digits 3) by (simpl; lia).
  apply validMoment_dayOfYear in Ha, Hb.
  unfold String.leb.
  rewrite compare_app by by rewrite !length_digits.
  rewrite compare_cons_same, !compare_digits by (simpl; lia).
  rewrite !Z2N.inj_compare by lia.
  destruct (Z.compare_spec (year a) (year b)) as [Hy|Hy|Hy].
  - rewrite (proj2 (Z.ltb_ge _ _)) by lia.
    rewrite (proj2 (Z.eqb_eq _ _)) by done. simpl.
    unfold Z.leb. by destruct (_ ?= _).
  - by rewrite (proj2 (Z.ltb_lt _ _)) by done.
  - rewrite (proj2 (Z.ltb_ge _ _)) by lia.
    by rewrite (proj2 (Z.eqb_neq _ _)) by lia.
Qed.

(** ** makeBucketNames *)

Lemma foldl_snoc_fmap {A B : Type} (f : A → B) (l : list A) (acc : list B) :
  foldl (λ acc a, acc ++ [f a]) acc l = acc ++ (f <$> l).
Proof.
  revert acc. induction l as [|a l IH]; intros acc; simpl.
  - by rewrite app_nil_r.
  - by rewrite IH, <- app_assoc.
Qed.

Lemma makeBucketNames_run fuel interval startDate endDate :
  validMoment startDate →
  (length (loopDays startDate endDate) < fuel)%nat →
  makeBucketNames fuel interval startDate endDate
  = Some (travellerKey <$> loopDays startDate endDate).
Proof.
  intros Hs Hfuel. unfold makeBucketNames.
  rewrite (while_ext _ _ (λ p, isSameOrBefore p.2 endDate) _
             (λ p, ((λ names d, names ++ [travellerKey d]) p.1 p.2, addDay p.2)));
    [|by intros [??]|by intros [??]; destruct interval].
  rewrite (while_loopDays (λ names d, names ++ [travellerKey d])
             endDate fuel startDate [] Hs Hfuel). simpl.
  by rewrite foldl_snoc_fmap.
Qed.

Example makeBucketNames_2023_150_153 :
  makeBucketNames 10 day (mkMoment 2023 150) (mkMoment 2023 153)
  = Some ["2023.150"; "2023.151"; "2023.152"; "2023.153"]%string.
Proof. vm_compute. reflexivity. Qed.

(** The three keys of the loop that starts at noon and ends at midnight. *)
Example makeBucketNames_noon_to_midnight :
  makeBucketNames 10 day (momentAt 2023 150 43200000) (momentAt 2023 153 0)
  = Some ["2023.150"; "2023.151"; "2023.152"]%string.
Proof. vm_compute. reflexivity. Qed.

(** C4. For valid dates and enough fuel, makeBucketNames returns the keys
    of the moments of its loop, in order: the start, the same time on the
    next day, and so on, as long as the moment is not after the end. The
    key of a day is its year, a dot and its day of the year on three
    digits with leading zeros, and the result is empty when the start is
    after the end. The loop compares instants: it reaches the day of the
    end when the time of day of the start is not later than that of the
    end, and then the keys are those of every day from the start to the
    end, as the example of the specification. When the start is later in
    the day than the end, the day of the end is left out: from day 150 at
    noon to day 153 at midnight the result holds three keys, not four. *)
Theorem makeBucketNames_spec :
  (∀ fuel interval startDate endDate,
     validMoment startDate → validMoment endDate →
     (length (loopDays startDate endDate) < fuel)%nat →
     makeBucketNames fuel interval startDate endDate
     = Some (travellerKey <$> loopDays startDate endDate)
     ∧ (∀ i d, loopDays startDate endDate !! i = Some d ↔
          d = addDays i startDate ∧ valueOf d ≤ valueOf endDate)
     ∧ (∀ i, validMoment (addDays i startDate)
          ∧ dayNumber (addDays i startDate)
            = dayNumber startDate + Z.of_nat i
          ∧ timeOfDay (addDays i startDate) = timeOfDay startDate)
     ∧ (∀ d, d ∈ loopDays startDate endDate →
          travellerKey d
          = String.app (toString (year d))
              (String "." (digits 3 (Z.to_N (dayOfYear d))))
          ∧ String.length (digits 3 (Z.to_N (dayOfYear d))) = 3%nat)
     ∧ length (loopDays startDate endDate)
       = Z.to_nat (dayNumber endDate - dayNumber startDate
                   - (if timeOfDay startDate <=? timeOfDay endDate
                      then 0 else 1) + 1)
     ∧ (isSameOrBefore startDate endDate = true →
          head (loopDays startDate endDate) = Some startDate)
     ∧ (isSameOrBefore startDate endDate = false →
          makeBucketNames fuel interval startDate endDate = Some []))
  ∧ makeBucketNames 10 day (mkMoment 2023 150) (mkMoment 2023 153)
    = Some ["2023.150"; "2023.151"; "2023.152"; "2023.153"]%string
  ∧ isSameOrBefore (momentAt 2023 150 43200000) (momentAt 2023 153 0) = true
  ∧ makeBucketNames 10 day (momentAt 2023 150 43200000) (momentAt 2023 153 0)
    = Some ["2023.150"; "2023.151"; "2023.152"]%string.
Proof.
  split; [|split; [apply makeBucketNames_2023_150_153|
                   split; [reflexivity|apply makeBucketNames_noon_to_midnight]]].
  intros fuel interval startDate endDate Hs He Hfuel.
  split; [by apply makeBucketNames_run|].
  split; [intros i d; by apply loopDays_lookup|].
  split.
  { intros i. split; [by apply addDays_valid|].
    split; [by apply dayNumber_addDays|apply timeOfDay_addDays]. }
  split.
  { intros d [i [-> _]]%elem_of_loopDays; [|done].
    split; [by apply travellerKey_digits, addDays_valid|apply length_digits]. }
  split; [by rewrite length_loopDays, loopDays_count|].
  rewrite isSameOrBefore_valueOf. split.
  - intros Hle%bool_decide_eq_true. by rewrite loopDays_cons.
  - intros Hlt%bool_decide_eq_false.
    rewrite makeBucketNames_run by done. by rewrite loopDays_nil by lia.
Qed.

(** ** Prefixes and sums *)

Lemma startsWith_spec s p : startsWith s p = true ↔ hasPrefix p s.
Proof.
  unfold startsWith, hasPrefix. revert s.
  induction p as [|a p IH]; intros s.
  - split; [intros _; by exists s|by destruct s].
  - destruct s as [|b s]; simpl.
    + split; [done|by intros [? ?]].
    + destruct (ascii_dec a b) as [->|Hne].
      * rewrite IH.
        split; intros [r Hr]; exists r; rewrite string_app_cons in *; congruence.
      * split; [done|]. intros [r Hr]. rewrite string_app_cons in Hr. congruence.
Qed.

Global Instance hasPrefix_dec p s : Decision (hasPrefix p s).
Proof.
  refine (cast_if (decide (startsWith s p = true)));
    abstract (by rewrite <- startsWith_spec).
Defined.

Lemma isDescendant_hasPrefix account candidate :
  isDescendant account candidate ↔ hasPrefix (String.app account ":") candidate.
Proof.
  unfold isDescendant, hasPrefix. by setoid_rewrite string_app_assoc.
Qed.

Global Instance isDescendant_dec account candidate :
  Decision (isDescendant account candidate).
Proof.
  refine (cast_if (decide (hasPrefix (String.app account ":") candidate)));
    abstract (by rewrite isDescendant_hasPrefix).
Defined.

Lemma orZero_default v : orZero v = default 0 v.
Proof. destruct v as [n|]; simpl; [|done]. by destruct (Z.eqb_spec n 0). Qed.


(** ** findChildAccounts *)

Lemma findChildAccounts_filter account accounts :
  findChildAccounts account accounts = filter (isDescendant account) accounts.
Proof.
  unfold findChildAccounts. apply list_filter_iff. intros c.
  rewrite isDescendant_hasPrefix, <- startsWith_spec.
  by destruct (startsWith _ _).
Qed.

(** C6. findChildAccounts keeps, in their order, exactly the candidates
    that are the target account followed by a colon and anything; a
    candidate that only shares the string prefix is not kept. *)
Theorem findChildAccounts_spec :
  (∀ account accounts,
     findChildAccounts account accounts = filter (isDescendant account) accounts)
  ∧ findChildAccounts "Assets:Bank"
      ["Assets:Bank"; "Assets:Bank:Checking"; "Assets:Banking"]
    = ["Assets:Bank:Checking"]
  ∧ ¬ isDescendant "Assets:Bank" "Assets:Banking".
Proof.
  split; [|split].
  - apply findChildAccounts_filter.
  - reflexivity.
  - by apply (bool_decide_eq_false_1 _).
Qed.

(** ** makeNetWorthData *)

Global Instance isNetWorthAccount_dec settings acct :
  Decision (isNetWorthAccount settings acct).
Proof. unfold isNetWorthAccount. apply _. Defined.




(** ** makeBalanceData and makeDeltaData *)

(** The account and its descendants, the way both series list them. *)
Definition accountFamily (account : string) (allAccounts : list string)
  : list string :=
  filter (isDescendant account) allAccounts ++ [account].

(** The summed balance of the account and its descendants at a bucket; a
    missing bucket or a missing account counts as 0. *)
Definition balanceAt (dense : gmap string (gmap string Z))
  (account : string) (allAccounts : list string) (bucket : string) : Z :=
  sumZ ((λ a, default 0 (dense !! bucket ≫= (.!! a)))
          <$> accountFamily account allAccounts).

(** The balance that a series reads for an account at a bucket: 0 for a
    missing bucket and for a missing account (and for a balance that is
    not a number). *)
Definition balanceOf `{Number A} (dense : gmap string (gmap string A))
  (bucket account : string) : A :=
  orZero (dense !! bucket ≫= (.!! account)).

(** The change of an account family between two buckets: the change of
    each account on its own, the descendants first and the account last,
    added up from 0. *)
Definition familyDelta `{Number A} (dense : gmap string (gmap string A))
  (account : string) (allAccounts : list string) (prevBucket bucket : string)
  : A :=
  foldl (λ total a,
           nadd (nsub (balanceOf dense bucket a) (balanceOf dense prevBucket a))
             total)
    nzero (accountFamily account allAccounts).

Lemma accountFamily_code account allAccounts :
  findChildAccounts account allAccounts ++ [account]
  = accountFamily account allAccounts.
Proof.
  unfold accountFamily. f_equal. apply findChildAccounts_filter.
Qed.


Lemma foldl_delta_sumZ {A : Type} (f g : A → Z) (l : list A) (acc : Z) :
  foldl (λ prev a, g a - f a + prev) acc l
  = sumZ (g <$> l) - sumZ (f <$> l) + acc.
Proof.
  unfold sumZ. revert acc. induction l as [|a l IH]; intros acc; csimpl; [done|].
  rewrite IH. lia.
Qed.

(** On exact integers the change of a family is the change of its summed
    balance: the two ways of adding agree when no sum is rounded. *)
Lemma familyDelta_exact (dense : gmap string (gmap string Z))
    account allAccounts prevBucket bucket :
  familyDelta dense account allAccounts prevBucket bucket
  = balanceAt dense account allAccounts bucket
    - balanceAt dense account allAccounts prevBucket.
Proof.
  unfold familyDelta, balanceOf, balanceAt.
  change (foldl (λ total a,
                   orZero (dense !! bucket ≫= (.!! a))
                   - orZero (dense !! prevBucket ≫= (.!! a)) + total)
            0 (accountFamily account allAccounts)
          = sumZ ((λ a, default 0 (dense !! bucket ≫= (.!! a)))
                    <$> accountFamily account allAccounts)
            - sumZ ((λ a, default 0 (dense !! prevBucket ≫= (.!! a)))
                      <$> accountFamily account allAccounts)).
  rewrite (foldl_delta_sumZ
             (λ a, orZero (dense !! prevBucket ≫= (.!! a)))
             (λ a, orZero (dense !! bucket ≫= (.!! a)))).
  rewrite Z.add_0_r.
  f_equal; f_equal; apply list_fmap_ext; intros ? a _; apply orZero_default.
Qed.

(** C8. makeDeltaData returns one point per bucket, in order; its [y] at
    bucket [i] is the sum, over the account and its descendants, of the
    balance of each of them at that bucket minus its balance at the bucket
    before it in the list, or at [bucketBefore] for the first bucket;
    missing entries count as 0. This holds for the doubles of the code as
    for exact integers. It is the change of each account that is added up,
    not the balances: on doubles the result can differ from the summed
    balance at the bucket minus the summed balance at the bucket before. *)
Theorem makeDeltaData_spec `{Number A} (dense : gmap string (gmap string A))
    bucketBefore bucketNames account allAccounts i bucket prevBucket :
  bucketNames !! i = Some bucket →
  match i with
  | O => prevBucket = bucketBefore
  | Datatypes.S j => bucketNames !! j = Some prevBucket
  end →
  length (makeDeltaData dense bucketBefore bucketNames account allAccounts)
  = length bucketNames
  ∧ makeDeltaData dense bucketBefore bucketNames account allAccounts !! i
    = Some {| x := bucket;
              y := familyDelta dense account allAccounts prevBucket bucket |}.
Proof.
  intros Hi Hprev. unfold makeDeltaData. split; [apply length_imap|].
  rewrite list_lookup_imap, Hi. simpl. do 2 f_equal.
  rewrite accountFamily_code. unfold familyDelta, balanceOf.
  assert (match i with
          | O => Some bucketBefore
          | Datatypes.S i' => bucketNames !! i'
          end = Some prevBucket) as ->.
  { destruct i; [by subst|done]. }
  done.
Qed.

Lemma makeDeltaData_spec_witness :
  (length (makeDeltaData deltaExample "2023.099"
             ["2023.100"; "2023.101"; "2023.102"]%string
             "Assets:Bank" ["Assets:Bank"]%string)
   = 3%nat
   ∧ makeDeltaData deltaExample "2023.099"
       ["2023.100"; "2023.101"; "2023.102"]%string
       "Assets:Bank" ["Assets:Bank"]%string !! 1%nat
     = Some {| x := "2023.101";
               y := familyDelta deltaExample "Assets:Bank"
                      ["Assets:Bank"]%string "2023.100" "2023.101" |})
  ∧ makeDeltaData deltaExample "2023.099"
      ["2023.100"; "2023.101"; "2023.102"]%string
      "Assets:Bank" ["Assets:Bank"]%string
    = [ {| x := "2023.100"; y := 10%float |};
        {| x := "2023.101"; y := 20%float |};
        {| x := "2023.102"; y := (-5)%float |} ].
Proof.
  split; [|vm_compute; reflexivity].
  apply (makeDeltaData_spec deltaExample "2023.099"
           ["2023.100"; "2023.101"; "2023.102"]%string
           "Assets:Bank" ["Assets:Bank"]%string 1 "2023.101" "2023.100");
    reflexivity.
Defined.

(** On the doubles 0.1 and 0.2 the delta of a family of two accounts is
    0.1, while the balance series of the same family moves from 0.2 to
    0.30000000000000004, a difference of 0.10000000000000003. *)
#[warnings="-inexact-float"]
Lemma makeDeltaData_spec_counterexample :
  makeDeltaData roundingExample "2023.099" ["2023.100"%string]
    "Assets" ["Assets"; "Assets:Bank"]%string
  = [ {| x := "2023.100"; y := 0.1%float |} ]
  ∧ makeBalanceData roundingExample ["2023.099"; "2023.100"]%string
      "Assets" ["Assets"; "Assets:Bank"]%string
    = [ {| x := "2023.099"; y := 0.2%float |};
        {| x := "2023.100"; y := 0.30000000000000004%float |} ]
  ∧ (0.30000000000000004 - 0.2)%float = 0.10000000000000003%float
  ∧ 0.1%float ≠ 0.10000000000000003%float.
Proof.
  split; [vm_compute; reflexivity|]. split; [vm_compute; reflexivity|].
  split; [vm_compute; reflexivity|]. vm_compute. discriminate.
Qed.

(** The same on whole numbers: above 2^53 a double cannot hold every
    integer. The delta of the family is 1; its summed balance does not
    move. *)
Example makeDeltaData_large_integers :
  makeDeltaData largeExample "2023.099" ["2023.100"%string]
    "Assets" ["Assets"; "Assets:Bank"]%string
  = [ {| x := "2023.100"; y := 1%float |} ]
  ∧ makeBalanceData largeExample ["2023.099"; "2023.100"]%string
      "Assets" ["Assets"; "Assets:Bank"]%string
    = [ {| x := "2023.099"; y := 9007199254740992%float |};
        {| x := "2023.100"; y := 9007199254740992%float |} ].
Proof. split; vm_compute; reflexivity. Qed.

(** ** makeDailyAccountBalanceChangeMap *)

Lemma nonEmpty_app {A : Type} (l k : list A) :
  nonEmpty (l ++ k)
  = match k with [] => nonEmpty l | _ => Some (default [] (nonEmpty l) ++ k) end.
Proof.
  destruct k as [|b k]; [by rewrite app_nil_r|]. by destruct l.
Qed.


Lemma pushWithDefault_lookup `{Countable K} {V : Type} (m : gmap K (list V))
    key x k :
  pushWithDefault m key x !! k
  = if decide (key = k) then Some (default [] (m !! key) ++ [x]) else m !! k.
Proof.
  unfold pushWithDefault, getWithDefault.
  destruct (m !! key) as [arr|] eqn:E; simpl.
  - rewrite lookup_insert. by case_decide.
  - rewrite lookup_insert. case_decide; [done|]. rewrite lookup_insert.
    by case_decide.
Qed.











(** ** makeDailyBalanceMap *)

Lemma foldl_insert_lookup {V : Type} (f : string → V) (accounts : list string) :
  ∀ (m : gmap string V) k,
    foldl (λ m a, <[a := f a]> m) m accounts !! k
    = if decide (k ∈ accounts) then Some (f k) else m !! k.
Proof.
  induction accounts as [|a accounts IH]; intros m k.
  - destruct (decide (k ∈ [])) as [Hin|_]; [|done].
    by apply elem_of_nil in Hin.
  - change (foldl _ m (a :: accounts))
      with (foldl (λ m a, <[a := f a]> m) (<[a := f a]> m) accounts).
    rewrite IH.
    destruct (decide (k ∈ accounts)) as [Hin|Hnin],
      (decide (k ∈ a :: accounts)) as [Hin'|Hnin']; try done.
    + destruct Hnin'. by right.
    + apply elem_of_cons in Hin' as [->|?]; [|done].
      by rewrite lookup_insert_eq.
    + rewrite lookup_insert_ne; [done|]. intros ->. apply Hnin'. by left.
Qed.

Lemma seedBalances_lookup accounts a :
  seedBalances accounts !! a = if decide (a ∈ accounts) then Some 0 else None.
Proof.
  unfold seedBalances.
  by rewrite (foldl_insert_lookup (λ _, 0)), lookup_empty.
Qed.

Lemma rollAccounts_lookup accounts previousData innerInputMap a :
  rollAccounts accounts previousData innerInputMap !! a
  = if decide (a ∈ accounts)
    then Some (default 0 (previousData !! a) + default 0 (innerInputMap !! a))
    else None.
Proof.
  unfold rollAccounts.
  rewrite (foldl_insert_lookup
             (λ a, orZero (previousData !! a) + orZero (innerInputMap !! a))).
  by rewrite lookup_empty, !orZero_default.
Qed.

Lemma seedBalances_dom accounts :
  dom (seedBalances accounts) = list_to_set accounts.
Proof.
  apply set_eq. intros a.
  rewrite elem_of_dom, seedBalances_lookup, elem_of_list_to_set.
  case_decide; [by split|]. split; [by intros [? ?]|done].
Qed.

Lemma rollAccounts_dom accounts previousData innerInputMap :
  dom (rollAccounts accounts previousData innerInputMap) = list_to_set accounts.
Proof.
  apply set_eq. intros a.
  rewrite elem_of_dom, rollAccounts_lookup, elem_of_list_to_set.
  case_decide; [by split|]. split; [by intros [? ?]|done].
Qed.

Lemma makeDailyBalanceMap_run fuel accounts input firstDate lastDate :
  validMoment firstDate →
  (length (loopDays firstDate lastDate) < fuel)%nat →
  makeDailyBalanceMap fuel accounts input firstDate lastDate
  = Some (foldl (rollDay accounts input) (∅, seedBalances accounts)
            (loopDays firstDate lastDate)).1.
Proof.
  intros Hs Hfuel. unfold makeDailyBalanceMap.
  rewrite (while_ext _ _ (λ p, isSameOrBefore p.2 lastDate) _
             (λ p, (rollDay accounts input p.1 p.2, addDay p.2))).
  - fold (seedBalances accounts).
    by rewrite (while_loopDays (rollDay accounts input) lastDate fuel
                  firstDate (∅, seedBalances accounts) Hs Hfuel).
  - by intros [[??]?].
  - intros [[result previousData] currentDate]. unfold rollDay. simpl.
    by destruct (input !! travellerKey currentDate).
Qed.

Lemma dayRun_loopDays s e : validMoment s → dayRun s (loopDays s e).
Proof. intros Hs i d Hi. by apply loopDays_lookup_day with e. Qed.

Lemma dayRun_app_l firstDate ds ds' :
  dayRun firstDate (ds ++ ds') → dayRun firstDate ds.
Proof. intros Hrun i d Hi. apply Hrun. by apply lookup_app_l_Some. Qed.

Lemma dayRun_lookup_inj firstDate ds i j d :
  dayRun firstDate ds → ds !! i = Some d → ds !! j = Some d → i = j.
Proof.
  intros Hrun Hi Hj. apply Hrun in Hi as (_ & Hi & _), Hj as (_ & Hj & _).
  lia.
Qed.

Lemma dayRun_NoDup_keys firstDate ds :
  dayRun firstDate ds → NoDup (travellerKey <$> ds).
Proof.
  intros Hrun. apply NoDup_fmap_2_strong.
  - intros a b [i Hi]%list_elem_of_lookup [j Hj]%list_elem_of_lookup.
    apply Hrun in Hi as (Ha & _ & Hta), Hj as (Hb & _ & Htb).
    apply travellerKey_inj_time; [done|done|congruence].
  - apply NoDup_alt. intros i j d. by apply dayRun_lookup_inj with firstDate.
Qed.

Lemma dayRun_key_fresh firstDate ds d j d' :
  dayRun firstDate (ds ++ [d]) → ds !! j = Some d' →
  travellerKey d' ≠ travellerKey d.
Proof.
  intros Hrun Hj Heq.
  pose proof (lookup_lt_Some _ _ _ Hj) as Hlt.
  assert ((ds ++ [d]) !! j = Some d') as Hj' by by apply lookup_app_l_Some.
  assert ((ds ++ [d]) !! length ds = Some d) as Hd.
  { by rewrite lookup_app_r, Nat.sub_diag. }
  pose proof (Hrun _ _ Hj') as (Hv' & _ & Ht').
  pose proof (Hrun _ _ Hd) as (Hv & _ & Ht).
  apply travellerKey_inj_time in Heq; [|done|done|congruence].
  subst d'. pose proof (dayRun_lookup_inj _ _ _ _ _ Hrun Hj' Hd). lia.
Qed.

Lemma previousBalances_snoc accounts dense ds d key v i prev :
  (∀ j d', ds !! j = Some d' → travellerKey d' ≠ key) →
  previousBalances accounts dense ds i prev →
  previousBalances accounts (<[key := v]> dense) (ds ++ [d]) i prev.
Proof.
  intros Hfresh. destruct i as [|j]; simpl; [done|].
  intros (d' & Hj & Hd'). exists d'. split; [by apply lookup_app_l_Some|].
  rewrite lookup_insert_ne; [done|]. intros Heq. by apply (Hfresh j d').
Qed.

Lemma rollDay_filled accounts input st d :
  filledFrom accounts input d st.2 (rollDay accounts input st d).2
  ∧ (rollDay accounts input st d).1
    = <[travellerKey d := (rollDay accounts input st d).2]> st.1.
Proof.
  unfold filledFrom, rollDay.
  destruct (input !! travellerKey d) as [delta|]; simpl; [|done].
  split; [|done]. intros a Ha.
  by rewrite rollAccounts_lookup, decide_True by done.
Qed.

Lemma rollDay_dom accounts input st d :
  dom st.2 = list_to_set accounts →
  dom (rollDay accounts input st d).2 =@{gset string} list_to_set accounts.
Proof.
  unfold rollDay. destruct (input !! travellerKey d); simpl; [|done].
  intros _. apply rollAccounts_dom.
Qed.

(** What the loop has built after the days [ds]. *)
Lemma rollDays_invariant accounts input firstDate ds :
  dayRun firstDate ds →
  let st := foldl (rollDay accounts input) (∅, seedBalances accounts) ds in
  previousBalances accounts st.1 ds (length ds) st.2
  ∧ dom st.1 = list_to_set (travellerKey <$> ds)
  ∧ dom st.2 = list_to_set accounts
  ∧ (∀ key m, st.1 !! key = Some m → dom m = list_to_set accounts)
  ∧ ∀ i d, ds !! i = Some d →
      ∃ cur prev, st.1 !! travellerKey d = Some cur
        ∧ previousBalances accounts st.1 ds i prev
        ∧ filledFrom accounts input d prev cur.
Proof.
  induction ds as [|d ds IH] using rev_ind; intros Hrun; simpl.
  - split; [done|]. split; [by rewrite dom_empty_L|].
    split; [apply seedBalances_dom|]. split; [|done].
    intros key m. by rewrite lookup_empty.
  - rewrite foldl_snoc.
    destruct (IH (dayRun_app_l _ _ _ Hrun)) as (Hprev & Hdom & Hdom2 & Hdoms & Hff).
    clear IH. set (st := foldl _ _ ds) in *.
    destruct (rollDay_filled accounts input st d) as [Hfill Hres].
    pose proof (rollDay_dom accounts input st d Hdom2) as Hdom2'.
    set (st' := rollDay accounts input st d) in *.
    assert (∀ j d', ds !! j = Some d' → travellerKey d' ≠ travellerKey d)
      as Hfresh by (intros j d'; by apply dayRun_key_fresh with firstDate).
    rewrite Hres. split; [|split; [|split; [|split]]].
    + rewrite length_app. simpl. rewrite Nat.add_1_r. simpl.
      exists d. split; [by rewrite lookup_app_r, Nat.sub_diag|].
      apply lookup_insert_eq.
    + rewrite dom_insert_L, Hdom, fmap_app, list_to_set_app_L. simpl.
      rewrite (right_id_L ∅ (∪)). apply (comm_L (∪)).
    + done.
    + intros key m. rewrite lookup_insert. case_decide; [|by apply Hdoms].
      intros [= <-]. done.
    + intros i d0 Hi. apply lookup_snoc_Some in Hi as [[Hlt Hi]|[-> ->]].
      * destruct (Hff i d0 Hi) as (cur & prev & Hcur & Hp & Hf).
        exists cur, prev. split; [|split; [|done]].
        -- rewrite lookup_insert_ne; [done|]. intros Heq. symmetry in Heq.
           by apply (Hfresh i d0).
        -- by apply previousBalances_snoc.
      * exists st'.2, st.2. split; [apply lookup_insert_eq|]. split; [|done].
        by apply previousBalances_snoc.
Qed.

Lemma seedBalances_zero accounts :
  seedBalances accounts = gset_to_gmap 0 (list_to_set accounts).
Proof.
  apply map_eq. intros a.
  rewrite seedBalances_lookup, lookup_gset_to_gmap.
  destruct (decide (a ∈ accounts)) as [Hin|Hnin].
  - by rewrite option_guard_True by by apply elem_of_list_to_set.
  - by rewrite option_guard_False by by rewrite elem_of_list_to_set.
Qed.

(** C1. For valid dates and enough fuel, makeDailyBalanceMap returns a map
    with exactly one entry per moment of its loop: firstDate, the same
    time on the next day, and so on, as long as the moment is not after
    lastDate. The entry of each of these days is forward filled from the
    balances before it, which are 0 for every account before the first day
    and the entry of the previous day afterwards: without an entry in the
    sparse map the balances are equal to the previous ones; with one, the
    balance of every tracked account is the previous balance plus the
    delta of that account, 0 when it has none. The loop compares instants,
    so the day of lastDate has an entry only when the time of day of
    firstDate is not later than that of lastDate: from day 150 at noon to
    day 153 at midnight the map has three entries and none for day 153. *)
Theorem makeDailyBalanceMap_forward_fill :
  (∀ fuel accounts input firstDate lastDate,
     validMoment firstDate → validMoment lastDate →
     (length (loopDays firstDate lastDate) < fuel)%nat →
     ∃ dense,
       makeDailyBalanceMap fuel accounts input firstDate lastDate = Some dense
       ∧ dom dense
         = list_to_set (travellerKey <$> loopDays firstDate lastDate)
       ∧ size dense
         = Z.to_nat (dayNumber lastDate - dayNumber firstDate
                     - (if timeOfDay firstDate <=? timeOfDay lastDate
                        then 0 else 1) + 1)
       ∧ ∀ i, valueOf (addDays i firstDate) ≤ valueOf lastDate →
           ∃ cur prev,
             dense !! travellerKey (addDays i firstDate) = Some cur
             ∧ match i with
               | O => prev = gset_to_gmap 0 (list_to_set accounts)
               | S j => dense !! travellerKey (addDays j firstDate)
                        = Some prev
               end
             ∧ match input !! travellerKey (addDays i firstDate) with
               | None => cur = prev
               | Some delta =>
                   ∀ a, a ∈ accounts →
                     cur !! a
                     = Some (default 0 (prev !! a) + default 0 (delta !! a))
               end)
  ∧ isSameOrBefore (momentAt 2023 150 43200000) (momentAt 2023 153 0) = true
  ∧ makeDailyBalanceMap 10 ["Assets:Bank"]%string ∅
      (momentAt 2023 150 43200000) (momentAt 2023 153 0)
    = Some {[ "2023.150"%string := {[ "Assets:Bank"%string := 0 ]};
              "2023.151"%string := {[ "Assets:Bank"%string := 0 ]};
              "2023.152"%string := {[ "Assets:Bank"%string := 0 ]} ]}.
Proof.
  split; [|split; [reflexivity|vm_compute; exact eq_refl]].
  intros fuel accounts input firstDate lastDate Hs He Hfuel.
  rewrite makeDailyBalanceMap_run by done.
  pose proof (dayRun_loopDays firstDate lastDate Hs) as Hrun.
  destruct (rollDays_invariant accounts input firstDate _ Hrun)
    as (_ & Hdom & _ & _ & Hff).
  set (st := foldl _ _ _) in *. exists st.1.
  split; [done|]. split; [done|]. split.
  - rewrite <- size_dom, Hdom, size_list_to_set
      by by apply dayRun_NoDup_keys with firstDate.
    by rewrite length_fmap, length_loopDays, loopDays_count.
  - intros i Hle.
    assert (loopDays firstDate lastDate !! i = Some (addDays i firstDate))
      as Hi by by apply loopDays_lookup.
    destruct (Hff _ _ Hi) as (cur & prev & Hcur & Hprev & Hfill).
    exists cur, prev. split; [done|]. split; [|done].
    destruct i as [|j]; simpl in Hprev.
    + by rewrite Hprev, seedBalances_zero.
    + destruct Hprev as (d' & Hd' & Hprev).
      apply loopDays_lookup in Hd' as [-> _]; done.
Qed.

(** C10. For valid dates and enough fuel, every inner map of the result of
    makeDailyBalanceMap has exactly the accounts of the list as its keys:
    a delta of an account that is not listed never shows, and a listed
    account has a balance on each day that the result holds, which are the
    days of the moments of the loop, the first day among them. *)
Theorem makeDailyBalanceMap_accounts fuel accounts input firstDate lastDate :
  validMoment firstDate → validMoment lastDate →
  isSameOrBefore firstDate lastDate = true →
  (length (loopDays firstDate lastDate) < fuel)%nat →
  ∃ dense,
    makeDailyBalanceMap fuel accounts input firstDate lastDate = Some dense
    ∧ (∀ key inner, dense !! key = Some inner →
         dom inner = list_to_set accounts
         ∧ ∀ a, is_Some (inner !! a) ↔ a ∈ accounts)
    ∧ (∀ i, valueOf (addDays i firstDate) ≤ valueOf lastDate →
         ∃ inner, dense !! travellerKey (addDays i firstDate) = Some inner
                  ∧ ∀ a, a ∈ accounts → is_Some (inner !! a))
    ∧ is_Some (dense !! travellerKey firstDate).
Proof.
  intros Hs He Hle Hfuel.
  rewrite isSameOrBefore_valueOf in Hle. apply bool_decide_eq_true in Hle.
  rewrite makeDailyBalanceMap_run by done.
  pose proof (dayRun_loopDays firstDate lastDate Hs) as Hrun.
  destruct (rollDays_invariant accounts input firstDate _ Hrun)
    as (_ & _ & _ & Hdoms & Hff).
  set (st := foldl _ _ _) in *. exists st.1.
  assert (∀ key inner, st.1 !! key = Some inner →
            ∀ a, is_Some (inner !! a) ↔ a ∈ accounts) as Hkeys.
  { intros key inner Hinner a.
    by rewrite <- elem_of_dom, (Hdoms key inner Hinner), elem_of_list_to_set. }
  assert (∀ i, valueOf (addDays i firstDate) ≤ valueOf lastDate →
            ∃ inner, st.1 !! travellerKey (addDays i firstDate) = Some inner
                     ∧ ∀ a, a ∈ accounts → is_Some (inner !! a)) as Hdays.
  { intros i Hi.
    assert (loopDays firstDate lastDate !! i = Some (addDays i firstDate))
      as Hi' by by apply loopDays_lookup.
    destruct (Hff _ _ Hi') as (cur & prev & Hcur & _). exists cur.
    split; [done|]. intros a Ha. by apply (Hkeys _ _ Hcur). }
  split; [done|]. split; [|split; [done|]].
  - intros key inner Hinner. split; [by apply (Hdoms key)|by apply (Hkeys key)].
  - destruct (Hdays O Hle) as (inner & Hinner & _). by exists inner.
Qed.

Lemma makeDailyBalanceMap_accounts_witness :
  ∃ dense,
    makeDailyBalanceMap 5 ["Assets:Bank"]%string
      {[ "2023.100"%string := {[ "Expenses:Food"%string := 7 ]} ]}
      (momentAt 2023 100 43200000) (mkMoment 2023 102) = Some dense
    ∧ dense
      = {[ "2023.100"%string := {[ "Assets:Bank"%string := 0 ]};
           "2023.101"%string := {[ "Assets:Bank"%string := 0 ]} ]}.
Proof.
  destruct (makeDailyBalanceMap_accounts 5 ["Assets:Bank"]%string
              {[ "2023.100"%string := {[ "Expenses:Food"%string := 7 ]} ]}
              (momentAt 2023 100 43200000) (mkMoment 2023 102))
    as (dense & Hrun & _).
  - vm_compute; repeat split; discriminate.
  - vm_compute; repeat split; discriminate.
  - reflexivity.
  - vm_compute; lia.
  - exists dense. split; [exact Hrun|].
    apply (inj Some). rewrite <- Hrun. vm_compute. exact eq_refl.
Defined.

(** ** bucketTransactions *)

Lemma string_ltb_leb a b : String.ltb a b = negb (String.leb b a).
Proof.
  unfold String.ltb, String.leb. rewrite (String.compare_antisym b a).
  by destruct (String.compare a b).
Qed.





(** The map after the [forEach] that initialises the buckets. *)
Lemma initial_buckets_lookup {V : Type} (bucketNames : list string) :
  ∀ (m : gmap (option string) (list V)) k,
    foldl (λ buckets name, <[Some name := []]> buckets) m bucketNames !! k
    = if decide (k ∈ Some <$> bucketNames) then Some [] else m !! k.
Proof.
  induction bucketNames as [|b bs IH]; intros m k.
  - destruct (decide (k ∈ Some <$> [])) as [Hin|_]; [|done].
    by apply elem_of_nil in Hin.
  - change (foldl _ m (b :: bs))
      with (foldl (λ buckets name, <[Some name := @nil V]> buckets)
              (<[Some b := []]> m) bs).
    rewrite IH, fmap_cons.
    destruct (decide (k ∈ Some <$> bs)) as [Hin|Hnin],
      (decide (k ∈ Some b :: (Some <$> bs))) as [Hin'|Hnin']; try done.
    + destruct Hnin'. by right.
    + apply elem_of_cons in Hin' as [->|?]; [|done].
      by rewrite lookup_insert_eq.
    + rewrite lookup_insert_ne; [done|]. intros <-. apply Hnin'. by left.
Qed.

(** Every key of the result holds the transactions that the scan sends to
    it, in their order; a key that is not a bucket name only shows once a
    transaction is sent to it. *)
Lemma bucketTransactions_lookup bucketNames txs k :
  bucketTransactions bucketNames txs !! k
  = let hits := filter (λ tx, targetBucketOf bucketNames tx = k) txs in
    if decide (k ∈ Some <$> bucketNames) then Some hits else nonEmpty hits.
Proof.
  unfold bucketTransactions. induction txs as [|tx txs IH] using rev_ind.
  - simpl. rewrite initial_buckets_lookup, lookup_empty. by case_decide.
  - rewrite foldl_snoc, pushWithDefault_lookup, filter_app. simpl.
    rewrite filter_cons, filter_nil.
    destruct (decide (targetBucketOf bucketNames tx = k)) as [Heq|Hne].
    + rewrite Heq, IH. case_decide; simpl; [done|].
      by rewrite nonEmpty_app.
    + by rewrite IH, app_nil_r.
Qed.



(** The keys of such days are sorted in the string order: for them the
    hypothesis of [bucketTransactions_spec] is the order of the calendar. *)
Lemma chronological_keys_sorted ds :
  Sorted chronological ds → Sorted String.le (travellerKey <$> ds).
Proof.
  apply Sorted_fmap. intros a b ((Ha & Hya) & (Hb & Hyb) & Hle).
  unfold String.le. rewrite travellerKey_leb by done.
  by apply bool_decide_pack.
Qed.

Lemma year_le_dayNumber a b :
  validMoment a → validMoment b → dayNumber a ≤ dayNumber b → year a ≤ year b.
Proof.
  intros Ha Hb Hle. destruct (Z.le_gt_cases (year a) (year b)); [done|].
  pose proof (dayNumber_year_lt b a Hb Ha). lia.
Qed.

Lemma loopDays_chronological e :
  validMoment e → year e ≤ 9999 →
  ∀ n s, length (loopDays s e) = n → validMoment s → 1000 ≤ year s →
    Sorted chronological (loopDays s e).
Proof.
  intros He Hye. induction n as [|n IH]; intros s Hlen Hs Hys.
  - apply nil_length_inv in Hlen. rewrite Hlen. constructor.
  - assert (valueOf s ≤ valueOf e) as Hle.
    { destruct (Z.le_gt_cases (valueOf s) (valueOf e)); [done|].
      rewrite loopDays_nil in Hlen by lia. done. }
    assert (year s ≤ year (addDay s)) as Hyear.
    { apply year_le_dayNumber; [done|by apply addDay_valid|].
      rewrite dayNumber_addDay by done. lia. }
    rewrite loopDays_cons in * by done. simpl in Hlen.
    constructor.
    + apply (IH (addDay s)); [lia|by apply addDay_valid|lia].
    + destruct (loopDays (addDay s) e) as [|d ds] eqn:Hds; constructor.
      assert (d = addDay s ∧ valueOf (addDay s) ≤ valueOf e) as [-> Hle'].
      { assert (loopDays (addDay s) e !! 0%nat = Some d) as H0
          by by rewrite Hds.
        apply loopDays_lookup in H0 as [-> Hle']; [|by apply addDay_valid].
        done. }
      pose proof (addDay_valid s Hs) as Hs'.
      pose proof (proj1 (valueOf_le s e Hs He) Hle).
      pose proof (proj1 (valueOf_le (addDay s) e Hs' He) Hle').
      pose proof (dayNumber_addDay s Hs).
      pose proof (year_le_dayNumber s e Hs He).
      pose proof (year_le_dayNumber (addDay s) e Hs' He).
      split; [split; [done|lia]|]. split; [split; [done|lia]|lia].
Qed.

(** The bucket names that makeBucketNames returns for years of four digits
    are sorted in the string order. *)
Lemma makeBucketNames_sorted fuel interval startDate endDate :
  validMoment startDate → validMoment endDate →
  1000 ≤ year startDate → year endDate ≤ 9999 →
  (length (loopDays startDate endDate) < fuel)%nat →
  ∃ names, makeBucketNames fuel interval startDate endDate = Some names
           ∧ Sorted String.le names.
Proof.
  intros Hs He Hys Hye Hfuel. eexists. split; [by apply makeBucketNames_run|].
  apply chronological_keys_sorted.
  by apply (loopDays_chronological endDate He Hye _ startDate eq_refl).
Qed.



Lemma filter_all {A : Type} (P : A → Prop) `{∀ x, Decision (P x)} (l : list A) :
  (∀ x, P x) → filter P l = l.
Proof.
  intros HP. induction l as [|a l IH]; [done|].
  by rewrite filter_cons_True, IH.
Qed.

Lemma filter_none {A : Type} (P : A → Prop) `{∀ x, Decision (P x)} (l : list A) :
  (∀ x, ¬ P x) → filter P l = [].
Proof.
  intros HP. induction l as [|a l IH]; [done|].
  by rewrite filter_cons_False.
Qed.

(** C3. With an empty bucket list the chart series are empty, but
    bucketTransactions keeps the transactions under the key [undefined]
    ([None]): its result is only empty when there is no transaction. *)
Theorem bucketTransactions_no_buckets :
  (∀ txs,
     bucketTransactions [] txs
     = match txs with [] => ∅ | _ => {[ None := txs ]} end)
  ∧ bucketTransactions [] [txOn 115] !! None = Some [txOn 115]
  ∧ bucketTransactions [] [txOn 115] ≠ ∅
  ∧ (∀ dense settings, makeNetWorthData dense [] settings = [])
  ∧ (∀ dense account allAccounts,
       makeBalanceData dense [] account allAccounts = [])
  ∧ (∀ dense bucketBefore account allAccounts,
       makeDeltaData dense bucketBefore [] account allAccounts = []).
Proof.
  assert (∀ txs,
            bucketTransactions [] txs
            = match txs with [] => ∅ | _ => {[ None := txs ]} end) as Hall.
  { intros txs. apply map_eq. intros k.
    rewrite bucketTransactions_lookup. cbv zeta.
    destruct (decide (k ∈ Some <$> [])) as [Hin|_];
      [by apply elem_of_nil in Hin|].
    change (targetBucketOf [] ) with (λ _ : EnhancedTransaction, @None string).
    destruct k as [b|].
    - rewrite filter_none by done.
      destruct txs; [done|]. by rewrite lookup_singleton_ne.
    - rewrite filter_all by done.
      destruct txs; [done|]. by rewrite lookup_singleton_eq. }
  split; [done|]. split; [by rewrite Hall, lookup_singleton_eq|].
  split; [|done]. rewrite Hall. intros Hempty.
  apply (f_equal (λ m : gmap (option string) (list EnhancedTransaction),
                    m !! None)) in Hempty.
  by rewrite lookup_singleton_eq, lookup_empty in Hempty.
Qed.

(** ** removeDuplicateAccounts *)

Lemma TreeNode_forall_ind (P : TreeNode → Prop) :
  (∀ e label children, Forall P children → P (Node e label children)) →
  ∀ n, P n.
Proof.
  intros Hnode. fix IH 1. intros [e label children]. apply Hnode.
  induction children as [|c cs IHcs]; constructor; [apply IH|apply IHcs].
Qed.

Lemma concat_snoc sep (prefix : list string) label :
  String.concat sep (prefix ++ [label])
  = match prefix with
    | [] => label
    | _ => String.app (String.concat sep prefix) (String.app sep label)
    end.
Proof.
  induction prefix as [|s prefix IH]; [done|].
  destruct prefix as [|s' prefix]; [done|].
  change (String.concat sep ((s :: s' :: prefix) ++ [label]))
    with (String.app s (String.app sep
            (String.concat sep ((s' :: prefix) ++ [label])))).
  rewrite IH.
  change (String.concat sep (s :: s' :: prefix))
    with (String.app s (String.app sep (String.concat sep (s' :: prefix)))).
  by rewrite !string_app_assoc.
Qed.

Lemma renderedPaths_app l k :
  renderedPaths (l ++ k) = renderedPaths l ++ renderedPaths k.
Proof. unfold renderedPaths. by rewrite filter_app, fmap_app. Qed.

Lemma renderNode_spec n : ∀ output prefix path,
  pathOf prefix path →
  (prefix = [] → nodeLabel n ≠ EmptyString ∨ nodeChildren n = []) →
  renderNode output n path = output ++ renderedPaths (nodesFrom prefix n).
Proof.
  induction n as [e label children IH] using TreeNode_forall_ind.
  intros output prefix path Hpath Htop. simpl.
  set (newPath := match path with
                  | Some (String _ _ as p) => joinPath p label
                  | _ => label
                  end).
  assert (newPath = String.concat ":" (prefix ++ [label])) as HnewPath.
  { rewrite concat_snoc. unfold newPath. destruct prefix as [|s prefix].
    - simpl in Hpath. by subst path.
    - destruct Hpath as [-> Hne]. by destruct (String.concat ":" (s :: prefix)). }
  assert (children = [] ∨ newPath ≠ EmptyString) as Hchildren.
  { destruct prefix as [|s prefix].
    - simpl in Hpath. subst path. unfold newPath.
      destruct (Htop eq_refl) as [?|?]; [by right|by left].
    - right. rewrite HnewPath, concat_snoc.
      destruct Hpath as [_ Hne]. by destruct (String.concat ":" (s :: prefix)). }
  unfold renderedPaths at 1. rewrite filter_cons. fold renderedPaths.
  assert (∀ out,
    foldl (λ output child, renderNode output child (Some newPath)) out children
    = out ++ renderedPaths (children ≫= nodesFrom (prefix ++ [label]))) as Hfold.
  { destruct Hchildren as [->|Hne]; [intros out; by rewrite app_nil_r|].
    clear Htop. induction IH as [|c cs Hc _ IHcs]; intros out; simpl.
    - by rewrite app_nil_r.
    - rewrite (Hc out (prefix ++ [label]) (Some newPath)).
      + rewrite IHcs, renderedPaths_app. by rewrite <- app_assoc.
      + rewrite HnewPath in *. by destruct (prefix ++ [label]) eqn:E;
          [destruct prefix|].
      + intros E. by destruct prefix. }
  rewrite Hfold. simpl.
  destruct (decide (isEmitted (Node e label children))) as [[Hlen He]|Hno];
    simpl in *.
  - rewrite He. rewrite (proj2 (Nat.eqb_neq _ _) Hlen). simpl.
    rewrite <- app_assoc. simpl. by rewrite HnewPath.
  - replace (negb (length children =? 1)%nat && e) with false; [done|].
    symmetry. apply andb_false_iff.
    destruct (Nat.eqb_spec (length children) 1); [by left|right].
    destruct e; [|done]. destruct Hno. by split.
Qed.

Lemma renderTree_root_spec children :
  Forall (λ n, nodeLabel n ≠ EmptyString ∨ nodeChildren n = []) children →
  renderTree [] (inl (mkRoot children)) None = renderedPaths (treeNodes children).
Proof.
  intros Htop. unfold treeNodes.
  assert (∀ out,
    foldl (λ output child, renderNode output child None) out children
    = out ++ renderedPaths (children ≫= nodesFrom [])) as Hfold.
  { induction Htop as [|c cs Hc _ IH]; intros out; simpl.
    - by rewrite app_nil_r.
    - rewrite (renderNode_spec c out [] None); [|reflexivity|by intros _].
      by rewrite IH, renderedPaths_app, <- app_assoc. }
  apply Hfold.
Qed.

(** *** The trie *)

Lemma insertSegments_cons segment rest cs :
  insertSegments (segment :: rest) cs
  = match cs with
    | [] => [Node (isLast rest) segment (insertSegments rest [])]
    | Node e l ch :: cs' =>
        if String.eqb l segment
        then Node (if isLast rest then true else e) l (insertSegments rest ch)
               :: cs'
        else Node e l ch :: insertSegments (segment :: rest) cs'
    end.
Proof. by destruct cs as [|[e l ch] cs']. Qed.

(** Inserting a path replaces or adds the child of its first segment and
    leaves the other children alone. *)
Lemma findChild_insert s segment rest cs :
  findChild s (insertSegments (segment :: rest) cs)
  = if decide (s = segment)
    then Some (Node (isLast rest
                     || default false (nodeExists <$> findChild segment cs))
                 segment
                 (insertSegments rest
                    (default [] (nodeChildren <$> findChild segment cs))))
    else findChild s cs.
Proof.
  induction cs as [|[e l ch] cs IH]; rewrite insertSegments_cons.
  - simpl. destruct (decide (s = segment)) as [->|Hne].
    + by rewrite String.eqb_refl, orb_false_r.
    + by rewrite (proj2 (String.eqb_neq _ _)) by done.
  - simpl. destruct (String.eqb_spec l segment) as [->|Hl]; simpl.
    + destruct (String.eqb_spec segment s) as [->|Hs].
      * rewrite decide_True by done. by destruct (isLast rest).
      * by rewrite decide_False by done.
    + destruct (String.eqb_spec l s) as [->|Hs].
      * by rewrite decide_False by done.
      * apply IH.
Qed.

Lemma existsAt_cons children segment rest :
  existsAt children (segment :: rest)
  = match rest with
    | [] => nodeExists <$> findChild segment children
    | _ => existsAt (default [] (nodeChildren <$> findChild segment children))
             rest
    end.
Proof.
  unfold existsAt. simpl.
  destruct (findChild segment children) as [n|]; simpl; [by destruct rest|].
  by destruct rest.
Qed.

Lemma existsAt_insert segments : ∀ cs path,
  existsAt (insertSegments segments cs) path
  = if decide (path ≠ [] ∧ path `prefix_of` segments)
    then Some (default false (existsAt cs path) || bool_decide (path = segments))
    else existsAt cs path.
Proof.
  induction segments as [|segment rest IH]; intros cs path.
  - simpl. destruct path as [|s path].
    + by rewrite decide_False by by intros [? _].
    + rewrite decide_False; [done|]. intros [_ Hp].
      by apply prefix_nil_inv in Hp.
  - destruct path as [|s prest].
    + by rewrite decide_False by by intros [? _].
    + rewrite !existsAt_cons, findChild_insert.
      destruct (decide (s = segment)) as [->|Hne]; simpl.
      * destruct prest as [|s' prest'].
        -- rewrite decide_True by (split; [done|]; by apply prefix_cons, prefix_nil).
           f_equal. rewrite orb_comm. f_equal.
           destruct rest; simpl; [by rewrite bool_decide_eq_true_2|].
           by rewrite bool_decide_eq_false_2.
        -- rewrite IH.
           destruct (decide (s' :: prest' ≠ [] ∧ s' :: prest' `prefix_of` rest))
             as [[_ Hp]|Hnp].
           ++ rewrite decide_True by (split; [done|]; by apply prefix_cons).
              do 2 f_equal. apply bool_decide_ext. split; congruence.
           ++ rewrite decide_False; [done|]. intros [_ Hp]. apply Hnp.
              split; [done|]. by apply prefix_cons_inv_2 in Hp.
      * rewrite decide_False; [done|]. intros [_ Hp].
        by apply prefix_cons_inv_1 in Hp.
Qed.

Lemma buildTree_snoc input path :
  buildTree (input ++ [path])
  = mkRoot (insertSegments (split ":" path) (rootChildren (buildTree input))).
Proof. unfold buildTree. by rewrite foldl_snoc. Qed.

(** The trie of the paths: the segments [path] lead to a node exactly when
    they start the segments of an input path, and the node is marked
    exactly when they are the segments of an input path. *)
Lemma existsAt_buildTree input path :
  existsAt (rootChildren (buildTree input)) path
  = if decide (path ≠ []
               ∧ Exists (λ p, path `prefix_of` split ":" p) input)
    then Some (bool_decide (path ∈ split ":" <$> input))
    else None.
Proof.
  induction input as [|p input IH] using rev_ind.
  - simpl. rewrite decide_False by (intros [_ H]; by apply Exists_nil in H).
    by destruct path.
  - rewrite buildTree_snoc. simpl. rewrite existsAt_insert, IH. clear IH.
    rewrite fmap_app. simpl.
    assert (Exists (λ p, path `prefix_of` split ":" p) (input ++ [p])
            ↔ Exists (λ p, path `prefix_of` split ":" p) input
              ∨ path `prefix_of` split ":" p) as Hex.
    { rewrite Exists_app, Exists_cons, Exists_nil. tauto. }
    assert (path ∈ (split ":" <$> input) ++ [split ":" p]
            ↔ path ∈ split ":" <$> input ∨ path = split ":" p) as Hel.
    { by rewrite elem_of_app, list_elem_of_singleton. }
    assert (path ∈ split ":" <$> input →
            Exists (λ p, path `prefix_of` split ":" p) input) as Hin.
    { intros (q & -> & Hq)%list_elem_of_fmap. apply Exists_exists.
      by exists q. }
    assert (path = split ":" p → path `prefix_of` split ":" p) as Heq
      by by intros ->.
    repeat case_decide; simpl; repeat case_bool_decide; simpl;
      try done; exfalso; tauto.
Qed.

Lemma split_nonempty sep s : split sep s ≠ [].
Proof.
  destruct s as [|c s]; simpl; [done|].
  destruct (Ascii.eqb c sep); [done|]. by destruct (split sep s).
Qed.

(** An empty first segment before another segment: the path starts with
    the separator. *)
Lemma split_leading_empty s p :
  [EmptyString; s] `prefix_of` split ":" p → hasPrefix ":" p.
Proof.
  destruct p as [|c p]; simpl.
  - intros [k Hk]. by simplify_eq/=.
  - destruct (Ascii.eqb_spec c ":") as [->|Hc].
    + intros _. by exists p.
    + intros [k Hk]. by destruct (split ":" p); simplify_eq/=.
Qed.

Lemma insertSegments_labels segment rest cs :
  nodeLabel <$> insertSegments (segment :: rest) cs
  = if decide (segment ∈ nodeLabel <$> cs) then nodeLabel <$> cs
    else (nodeLabel <$> cs) ++ [segment].
Proof.
  induction cs as [|[e l ch] cs IH]; rewrite insertSegments_cons.
  - by rewrite decide_False by apply not_elem_of_nil.
  - destruct (String.eqb_spec l segment) as [->|Hl]; rewrite !fmap_cons.
    + by rewrite decide_True by by left.
    + rewrite IH. simpl.
      destruct (decide (segment ∈ nodeLabel <$> cs)) as [Hin|Hnin].
      * by rewrite decide_True by by right.
      * rewrite decide_False; [done|]. by intros [?|?]%elem_of_cons.
Qed.

Lemma buildTree_labels_NoDup input :
  NoDup (nodeLabel <$> rootChildren (buildTree input)).
Proof.
  induction input as [|p input IH] using rev_ind; [constructor|].
  rewrite buildTree_snoc. simpl.
  destruct (split ":" p) as [|segment rest] eqn:Hsplit;
    [by apply split_nonempty in Hsplit|].
  rewrite insertSegments_labels. case_decide; [done|].
  apply NoDup_app. split; [done|]. split; [|apply NoDup_singleton].
  by intros l Hl ->%list_elem_of_singleton.
Qed.

Lemma findChild_elem cs n :
  NoDup (nodeLabel <$> cs) → n ∈ cs → findChild (nodeLabel n) cs = Some n.
Proof.
  induction cs as [|c cs IH]; intros Hnd Hn; [by apply elem_of_nil in Hn|].
  apply NoDup_cons in Hnd as [Hc Hnd]. simpl.
  apply elem_of_cons in Hn as [->|Hn]; [by rewrite String.eqb_refl|].
  destruct (String.eqb_spec (nodeLabel c) (nodeLabel n)) as [Heq|_];
    [|by apply IH].
  destruct Hc. rewrite Heq. by apply list_elem_of_fmap_2.
Qed.

(** When no input path starts with a colon, a node of the first level
    with the empty label has no children. *)
Lemma buildTree_top input :
  Forall (λ p, ¬ hasPrefix ":" p) input →
  Forall (λ n, nodeLabel n ≠ EmptyString ∨ nodeChildren n = [])
    (rootChildren (buildTree input)).
Proof.
  intros Hinput. apply Forall_forall. intros n Hn.
  destruct (decide (nodeLabel n = EmptyString)) as [Hl|?]; [right|by left].
  destruct (nodeChildren n) as [|c cs] eqn:Hch; [done|]. exfalso.
  pose proof (existsAt_buildTree input [EmptyString; nodeLabel c]) as Hex.
  rewrite existsAt_cons, <- Hl in Hex.
  rewrite (findChild_elem _ n (buildTree_labels_NoDup input) Hn) in Hex.
  simpl in Hex. rewrite Hch in Hex. unfold existsAt in Hex. simpl in Hex.
  rewrite String.eqb_refl in Hex. case_decide as Hp; [|done].
  destruct Hp as [_ (p & Hp & Hprefix)%Exists_exists].
  rewrite Forall_forall in Hinput. apply (Hinput p Hp).
  rewrite Hl in Hprefix. by apply split_leading_empty in Hprefix.
Qed.

(** For account paths that do not start with a colon, the output is the
    colon-joined path of the nodes of the trie of the paths, in depth-first
    pre-order with the children in the order of their insertion, that have
    a child count other than 1 and at which a path ends. *)
Lemma removeDuplicateAccounts_joined_paths input :
  Forall (λ p, ¬ hasPrefix ":" p) input →
  removeDuplicateAccounts input
  = renderedPaths (treeNodes (rootChildren (buildTree input))).
Proof.
  intros Hinput. unfold removeDuplicateAccounts.
  destruct (buildTree input) as [children] eqn:Htree.
  apply renderTree_root_spec.
  pose proof (buildTree_top input Hinput) as Htop. by rewrite Htree in Htop.
Qed.

(** C9. For paths that do not start with a colon the output is as stated,
    and the example of the specification renders as stated. But the path
    of a node below an empty first segment is not the colon-joined path:
    the account [":a"] is rendered as ["a"], because the test [path ?] of
    renderTree takes the empty path of its parent for a missing one. *)
Theorem removeDuplicateAccounts_leading_colon :
  removeDuplicateAccounts [":a"] = ["a"]
  ∧ split ":" ":a" = [""; "a"]
  ∧ buildTree [":a"] = mkRoot [Node false "" [Node true "a" []]]
  ∧ renderedPaths (treeNodes (rootChildren (buildTree [":a"]))) = [":a"]
  ∧ (∀ input,
       Forall (λ p, ¬ hasPrefix ":" p) input →
       removeDuplicateAccounts input
       = renderedPaths (treeNodes (rootChildren (buildTree input))))
  ∧ removeDuplicateAccounts
      ["Liabilities"; "Liabilities:Credit"; "Liabilities:Credit:Chase";
       "Liabilities:Credit:Citi"]
    = ["Liabilities:Credit"; "Liabilities:Credit:Chase";
       "Liabilities:Credit:Citi"].
Proof.
  repeat split; try reflexivity. apply removeDuplicateAccounts_joined_paths.
Qed.

(** * Further properties *)

(** ** The balance and the delta series *)


(** ** The account hierarchy *)

Lemma isDescendant_length account candidate :
  isDescendant account candidate →
  (String.length account < String.length candidate)%nat.
Proof.
  intros [rest ->]. rewrite !string_length_app. simpl. lia.
Qed.

Lemma isDescendant_trans a b c :
  isDescendant a b → isDescendant b c → isDescendant a c.
Proof.
  intros [r1 ->] [r2 ->]. exists (String.app r1 (String.app ":" r2)).
  by rewrite !string_app_assoc.
Qed.

(** X3. The descendants of a descendant are found among the descendants of
    the account: looking them up in the whole list or in the children of the
    account gives the same list. An account is never among its own
    children, and never among the children of one of its descendants. *)
Theorem findChildAccounts_nested account child accounts :
  isDescendant account child →
  findChildAccounts child accounts
  = findChildAccounts child (findChildAccounts account accounts)
  ∧ (child ∉ findChildAccounts child accounts)
  ∧ (account ∉ findChildAccounts child accounts).
Proof.
  intros Hchild. rewrite !findChildAccounts_filter. split; [|split].
  - induction accounts as [|c cs IH]; [done|].
    rewrite !filter_cons.
    destruct (decide (isDescendant child c)) as [Hc|Hc].
    + rewrite decide_True by exact (isDescendant_trans _ _ _ Hchild Hc).
      rewrite filter_cons, decide_True by done. by f_equal.
    + destruct (decide (isDescendant account c)); [|done].
      by rewrite filter_cons, decide_False by done.
  - intros [Hd _]%list_elem_of_filter. apply isDescendant_length in Hd. lia.
  - intros [Hd _]%list_elem_of_filter.
    apply isDescendant_length in Hd, Hchild. lia.
Qed.

Lemma findChildAccounts_nested_witness :
  findChildAccounts "Assets:Bank"
    ["Assets"; "Assets:Bank"; "Assets:Bank:Checking"; "Assets:Cash"]
  = findChildAccounts "Assets:Bank"
      (findChildAccounts "Assets"
         ["Assets"; "Assets:Bank"; "Assets:Bank:Checking"; "Assets:Cash"])
  ∧ findChildAccounts "Assets:Bank"
      ["Assets"; "Assets:Bank"; "Assets:Bank:Checking"; "Assets:Cash"]
    = ["Assets:Bank:Checking"].
Proof.
  split; [|reflexivity].
  apply (findChildAccounts_nested "Assets" "Assets:Bank"
           ["Assets"; "Assets:Bank"; "Assets:Bank:Checking"; "Assets:Cash"]).
  by exists "Bank"%string.
Defined.

(** ** Keys *)

(** X4. Two valid moments have the same key only when they are on the
    same day: a key names one day. Two valid moments at the same time of
    day have the same key only when they are equal. *)
Theorem travellerKey_one_day a b :
  validMoment a → validMoment b →
  (travellerKey a = travellerKey b
   ↔ year a = year b ∧ dayOfYear a = dayOfYear b)
  ∧ (timeOfDay a = timeOfDay b → travellerKey a = travellerKey b ↔ a = b).
Proof.
  intros Ha Hb. split.
  - split; [by apply travellerKey_inj|].
    intros [Hy Hd]. unfold travellerKey. by rewrite Hy, Hd.
  - intros Ht. split; [by apply travellerKey_inj_time|by intros ->].
Qed.

Lemma travellerKey_one_day_witness :
  (travellerKey (mkMoment 2023 365) = travellerKey (mkMoment 2024 1)
   ↔ year (mkMoment 2023 365) = year (mkMoment 2024 1)
     ∧ dayOfYear (mkMoment 2023 365) = dayOfYear (mkMoment 2024 1))
  ∧ (timeOfDay (mkMoment 2023 365) = timeOfDay (mkMoment 2024 1) →
     travellerKey (mkMoment 2023 365) = travellerKey (mkMoment 2024 1)
     ↔ mkMoment 2023 365 = mkMoment 2024 1).
Proof.
  apply (travellerKey_one_day (mkMoment 2023 365) (mkMoment 2024 1));
    vm_compute; repeat split; discriminate.
Defined.

(** X5. For valid days in years of four digits the comparison of
    bucketTransactions, [bucketName > txTravellerDate] on the keys, holds
    exactly when the bucket is a later day than the transaction, and the
    keys are in the string order exactly when the days are in the order of
    the calendar. *)
Theorem travellerKey_order txDate bucketDate :
  validMoment txDate → validMoment bucketDate →
  1000 ≤ year txDate ≤ 9999 → 1000 ≤ year bucketDate ≤ 9999 →
  (String.ltb (travellerKey txDate) (travellerKey bucketDate) = true
   ↔ dayNumber txDate < dayNumber bucketDate)
  ∧ (String.leb (travellerKey bucketDate) (travellerKey txDate) = true
     ↔ dayNumber bucketDate ≤ dayNumber txDate).
Proof.
  intros Htx Hb Hytx Hyb.
  assert (String.leb (travellerKey bucketDate) (travellerKey txDate) = true
          ↔ dayNumber bucketDate ≤ dayNumber txDate) as Hle.
  { rewrite travellerKey_leb by done. apply bool_decide_eq_true. }
  split; [|done]. rewrite string_ltb_leb, negb_true_iff.
  rewrite <- not_true_iff_false, Hle. lia.
Qed.

Lemma travellerKey_order_witness :
  (String.ltb (travellerKey (mkMoment 2023 365)) (travellerKey (mkMoment 2024 1))
   = true
   ↔ dayNumber (mkMoment 2023 365) < dayNumber (mkMoment 2024 1))
  ∧ (String.leb (travellerKey (mkMoment 2024 1)) (travellerKey (mkMoment 2023 365))
     = true
     ↔ dayNumber (mkMoment 2024 1) ≤ dayNumber (mkMoment 2023 365)).
Proof.
  apply (travellerKey_order (mkMoment 2023 365) (mkMoment 2024 1));
    vm_compute; repeat split; discriminate.
Defined.

(** ** Bucket names *)

Lemma length_loopDays_day s e :
  validMoment s → validMoment e →
  length (loopDays s e) = Z.to_nat (lastLoopDay s e - dayNumber s + 1).
Proof.
  intros Hs He. rewrite length_loopDays, loopDays_count by done.
  unfold lastLoopDay. f_equal. lia.
Qed.

(** X6. For valid dates and enough fuel the bucket names that
    makeBucketNames returns are pairwise distinct and there are as many of
    them as there are days from the day of the start to the last day of
    the loop, which is the day of the end, or the day before it when the
    start is later in the day than the end. For years of four digits they
    are sorted in the string order that bucketTransactions relies on. *)
Theorem makeBucketNames_distinct_sorted fuel interval startDate endDate :
  validMoment startDate → validMoment endDate →
  (length (loopDays startDate endDate) < fuel)%nat →
  ∃ names,
    makeBucketNames fuel interval startDate endDate = Some names
    ∧ NoDup names
    ∧ length names
      = Z.to_nat (dayNumber endDate
                  - (if timeOfDay startDate <=? timeOfDay endDate
                     then 0 else 1)
                  - dayNumber startDate + 1)
    ∧ (1000 ≤ year startDate → year endDate ≤ 9999 →
       Sorted String.le names).
Proof.
  intros Hs He Hfuel. eexists. split; [by apply makeBucketNames_run|].
  split; [|split].
  - apply dayRun_NoDup_keys with startDate. by apply dayRun_loopDays.
  - by rewrite length_fmap, length_loopDays_day.
  - intros Hys Hye. apply chronological_keys_sorted.
    by apply (loopDays_chronological endDate He Hye _ startDate eq_refl).
Qed.

Lemma makeBucketNames_distinct_sorted_witness :
  ∃ names,
    makeBucketNames 10 day (momentAt 2023 364 43200000) (mkMoment 2024 2)
    = Some names
    ∧ NoDup names
    ∧ length names = 3%nat.
Proof.
  destruct (makeBucketNames_distinct_sorted 10 day
              (momentAt 2023 364 43200000) (mkMoment 2024 2))
    as (names & Hrun & Hnd & Hlen & _).
  - vm_compute; repeat split; discriminate.
  - vm_compute; repeat split; discriminate.
  - vm_compute; lia.
  - exists names. split; [exact Hrun|]. split; [exact Hnd|exact Hlen].
Defined.

(** ** Bucketing *)

Lemma bucketedCount_insert `{Countable K} {V : Type} (m : gmap K (list V)) k v :
  m !! k = None →
  bucketedCount (<[k := v]> m) = (length v + bucketedCount m)%nat.
Proof.
  intros Hk. unfold bucketedCount.
  rewrite map_fold_insert_L; [done| |done]. intros. lia.
Qed.

Lemma bucketedCount_empty_buckets `{Countable K} {V : Type}
    (m : gmap K (list V)) :
  (∀ k v, m !! k = Some v → v = []) → bucketedCount m = 0%nat.
Proof.
  induction m as [|k v m Hk IH] using map_ind; intros Hall; [done|].
  rewrite bucketedCount_insert by done.
  rewrite (Hall k v) by apply lookup_insert_eq. simpl. apply IH.
  intros k' v' Hk'. apply (Hall k'). rewrite lookup_insert_ne; [done|].
  intros ->. by rewrite Hk in Hk'.
Qed.

Lemma bucketedCount_push `{Countable K} {V : Type} (m : gmap K (list V)) k x :
  bucketedCount (pushWithDefault m k x) = S (bucketedCount m).
Proof.
  unfold pushWithDefault, getWithDefault.
  destruct (m !! k) as [arr|] eqn:Hk; simpl.
  - rewrite <- (insert_delete_id m k arr Hk) at 2.
    rewrite <- insert_delete_eq.
    rewrite !bucketedCount_insert by apply lookup_delete_eq.
    rewrite length_app. simpl. lia.
  - rewrite insert_insert_eq. by rewrite bucketedCount_insert.
Qed.

Lemma scanBuckets_elem key bucketNames : ∀ targetBucket,
  scanBuckets bucketNames key targetBucket = targetBucket
  ∨ ∃ b, b ∈ bucketNames ∧ scanBuckets bucketNames key targetBucket = Some b.
Proof.
  induction bucketNames as [|b bs IH]; intros targetBucket; simpl; [by left|].
  destruct (String.ltb key b); [by left|].
  right. destruct (IH (Some b)) as [->|(c & Hc & ->)].
  - exists b. split; [by left|done].
  - exists c. split; [by right|done].
Qed.

Lemma targetBucketOf_elem bucketNames tx :
  bucketNames ≠ [] →
  ∃ b, b ∈ bucketNames ∧ targetBucketOf bucketNames tx = Some b.
Proof.
  intros Hne. unfold targetBucketOf.
  destruct (scanBuckets_elem (travellerKey (date (value tx))) bucketNames
              (head bucketNames)) as [->|?]; [|done].
  destruct bucketNames as [|b bs]; [done|]. exists b. split; [by left|done].
Qed.

(** X7. bucketTransactions neither drops nor repeats a transaction: the
    sizes of the buckets of its result add up to the number of
    transactions, for every bucket list. When the bucket list is not
    empty, in whatever order it is, the keys of the result are the bucket
    names and every transaction is in the bucket of one of them. *)
Theorem bucketTransactions_keeps_all :
  (∀ bucketNames txs,
     bucketedCount (bucketTransactions bucketNames txs) = length txs)
  ∧ (∀ bucketNames txs k,
       bucketNames ≠ [] →
       is_Some (bucketTransactions bucketNames txs !! k)
       ↔ k ∈ Some <$> bucketNames)
  ∧ (∀ bucketNames txs tx,
       bucketNames ≠ [] → tx ∈ txs →
       ∃ b bucket, b ∈ bucketNames
         ∧ bucketTransactions bucketNames txs !! Some b = Some bucket
         ∧ tx ∈ bucket).
Proof.
  split; [|split].
  - intros bucketNames txs. unfold bucketTransactions.
    induction txs as [|tx txs IH] using rev_ind.
    + simpl. apply bucketedCount_empty_buckets. intros k v.
      rewrite initial_buckets_lookup, lookup_empty. by case_decide; intros [=].
    + rewrite foldl_snoc, bucketedCount_push, IH, length_app. simpl. lia.
  - intros bucketNames txs k Hne. rewrite bucketTransactions_lookup. cbv zeta.
    destruct (decide (k ∈ Some <$> bucketNames)) as [Hin|Hnin]; [by split|].
    split; [|done]. intros [hits Hhits].
    destruct (filter _ txs) as [|tx hits'] eqn:Hf; [done|].
    assert (tx ∈ filter (λ tx, targetBucketOf bucketNames tx = k) txs) as Htx
      by (rewrite Hf; by left).
    apply list_elem_of_filter in Htx as [<- _].
    destruct (targetBucketOf_elem bucketNames tx Hne) as (b & Hb & ->).
    by apply list_elem_of_fmap_2.
  - intros bucketNames txs tx Hne Htx.
    destruct (targetBucketOf_elem bucketNames tx Hne) as (b & Hb & Htarget).
    exists b. eexists. split; [done|]. rewrite bucketTransactions_lookup.
    cbv zeta. rewrite decide_True by by apply list_elem_of_fmap_2.
    split; [done|]. by apply list_elem_of_filter.
Qed.











(** ** The dense map *)

Lemma runningTotal_snoc input a ds d :
  runningTotal input a (ds ++ [d]) = runningTotal input a ds + deltaOn input a d.
Proof. unfold runningTotal. by rewrite foldl_snoc. Qed.

Lemma rollDay_running accounts input st d total :
  (∀ a, st.2 !! a = if decide (a ∈ accounts) then Some (total a) else None) →
  ∀ a, (rollDay accounts input st d).2 !! a
       = if decide (a ∈ accounts) then Some (total a + deltaOn input a d)
         else None.
Proof.
  intros Hst a. unfold rollDay, deltaOn.
  destruct (input !! travellerKey d) as [delta|]; simpl.
  - rewrite rollAccounts_lookup, Hst. by case_decide.
  - rewrite Hst. case_decide; [|done]. by rewrite Z.add_0_r.
Qed.

(** The state of the loop after the days [ds]: the running totals. *)
Lemma rollDays_running accounts input firstDate ds :
  dayRun firstDate ds →
  let st := foldl (rollDay accounts input) (∅, seedBalances accounts) ds in
  (∀ a, st.2 !! a
        = if decide (a ∈ accounts) then Some (runningTotal input a ds)
          else None)
  ∧ ∀ i d, ds !! i = Some d →
      ∃ cur, st.1 !! travellerKey d = Some cur
        ∧ ∀ a, cur !! a
               = if decide (a ∈ accounts)
                 then Some (runningTotal input a (take (S i) ds))
                 else None.
Proof.
  induction ds as [|d ds IH] using rev_ind; intros Hrun; simpl.
  - split; [|done]. intros a. by rewrite seedBalances_lookup.
  - rewrite foldl_snoc.
    destruct (IH (dayRun_app_l _ _ _ Hrun)) as [Hprev Hdays]. clear IH.
    set (st := foldl _ _ ds) in *.
    pose proof (rollDay_running accounts input st d _ Hprev) as Hcur.
    destruct (rollDay_filled accounts input st d) as [_ Hres].
    set (st' := rollDay accounts input st d) in *.
    assert (∀ a, st'.2 !! a
                 = if decide (a ∈ accounts)
                   then Some (runningTotal input a (ds ++ [d])) else None)
      as Hcur'.
    { intros a. rewrite Hcur. by rewrite runningTotal_snoc. }
    split; [done|]. intros i d0 Hi. rewrite Hres.
    apply lookup_snoc_Some in Hi as [[Hlt Hi]|[-> ->]].
    + destruct (Hdays i d0 Hi) as (cur & Hcur0 & Htot). exists cur.
      rewrite lookup_insert_ne.
      * split; [done|]. intros a. rewrite Htot.
        by rewrite take_app_le by lia.
      * intros Heq. symmetry in Heq.
        by apply (dayRun_key_fresh firstDate ds d i d0).
    + exists st'.2. split; [apply lookup_insert_eq|]. intros a.
      rewrite Hcur'. by rewrite take_app_ge, Nat.sub_succ_l, Nat.sub_diag by lia.
Qed.

(** The moments of the loop up to the one [i] days after [s]. *)
Lemma take_loopDays s e i :
  validMoment s → valueOf (addDays i s) ≤ valueOf e →
  take (S i) (loopDays s e) = loopDays s (addDays i s).
Proof.
  intros Hs Hle. rewrite valueOf_addDays in Hle by done.
  unfold loopDays. rewrite <- fmap_take, take_seq, valueOf_addDays by done.
  do 2 f_equal. revert Hle. unfold msPerDay. intros Hle.
  Z.to_euclidean_division_equations. lia.
Qed.

(** The entry that the dense map holds for a day of the loop. *)
Lemma makeDailyBalanceMap_lookup fuel accounts input firstDate lastDate i :
  validMoment firstDate →
  (length (loopDays firstDate lastDate) < fuel)%nat →
  valueOf (addDays i firstDate) ≤ valueOf lastDate →
  ∃ dense cur,
    makeDailyBalanceMap fuel accounts input firstDate lastDate = Some dense
    ∧ dense !! travellerKey (addDays i firstDate) = Some cur
    ∧ ∀ a, cur !! a
           = if decide (a ∈ accounts)
             then Some (runningTotal input a
                          (loopDays firstDate (addDays i firstDate)))
             else None.
Proof.
  intros Hs Hfuel Hle. eexists.
  destruct (rollDays_running accounts input firstDate
              (loopDays firstDate lastDate)
              (dayRun_loopDays _ _ Hs)) as [_ Hdays].
  destruct (Hdays i (addDays i firstDate)) as (cur & Hcur & Htot);
    [by apply loopDays_lookup|].
  exists cur. split; [by apply makeDailyBalanceMap_run|]. split; [done|].
  intros a. rewrite Htot. by rewrite take_loopDays.
Qed.

(** X9. The dense map holds running totals: for valid dates and enough
    fuel, the balance that makeDailyBalanceMap gives a tracked account on a
    day of its loop (the day [i] days after firstDate, as long as that
    moment is not after lastDate) is the sum of the deltas that the sparse
    map books on that account on the days from firstDate to that day,
    added up day after day, where a day or an account without a delta
    counts as 0; an account that is not tracked has no balance. *)
Theorem makeDailyBalanceMap_running_total
    fuel accounts input firstDate lastDate i :
  validMoment firstDate → validMoment lastDate →
  (length (loopDays firstDate lastDate) < fuel)%nat →
  valueOf (addDays i firstDate) ≤ valueOf lastDate →
  ∃ dense cur,
    makeDailyBalanceMap fuel accounts input firstDate lastDate = Some dense
    ∧ dense !! travellerKey (addDays i firstDate) = Some cur
    ∧ (∀ a, a ∈ accounts →
         cur !! a
         = Some (runningTotal input a
                   (loopDays firstDate (addDays i firstDate))))
    ∧ (∀ a, a ∉ accounts → cur !! a = None).
Proof.
  intros Hs He Hfuel Hle.
  destruct (makeDailyBalanceMap_lookup fuel accounts input firstDate lastDate i)
    as (dense & cur & Hrun & Hcur & Htot); [done..|].
  exists dense, cur. split; [done|]. split; [done|].
  split; intros a Ha; rewrite Htot; [by rewrite decide_True|by rewrite decide_False].
Qed.

Lemma makeDailyBalanceMap_running_total_witness :
  ∃ dense cur,
    makeDailyBalanceMap 10 ["Assets:Bank"%string]
      {[ "2023.364"%string := {[ "Assets:Bank"%string := 5 ]};
         "2024.001"%string := {[ "Assets:Bank"%string := 7 ]} ]}
      (momentAt 2023 364 43200000) (mkMoment 2024 2) = Some dense
    ∧ dense !! "2024.001"%string = Some cur
    ∧ cur !! "Assets:Bank"%string = Some 12.
Proof.
  destruct (makeDailyBalanceMap_running_total 10 ["Assets:Bank"%string]
              {[ "2023.364"%string := {[ "Assets:Bank"%string := 5 ]};
                 "2024.001"%string := {[ "Assets:Bank"%string := 7 ]} ]}
              (momentAt 2023 364 43200000) (mkMoment 2024 2) 2)
    as (dense & cur & Hrun & Hcur & Htot & _).
  - vm_compute; repeat split; discriminate.
  - vm_compute; repeat split; discriminate.
  - vm_compute; lia.
  - vm_compute; discriminate.
  - exists dense, cur. split; [exact Hrun|]. split; [exact Hcur|].
    apply (Htot "Assets:Bank"%string). apply list_elem_of_here.
Defined.


(** ** From the transactions to the balances *)





(** ** The net worth *)



(** ** The date range selector *)

Lemma subDay_valid m : validMoment m → validMoment (subDay m).
Proof.
  unfold validMoment, subDay. intros Hm.
  destruct (Z.ltb_spec 1 (dayOfYear m)); simpl; [lia|].
  destruct (daysInYear_cases (year m - 1)); lia.
Qed.

Lemma dayNumber_subDay m :
  validMoment m → dayNumber (subDay m) = dayNumber m - 1.
Proof.
  unfold validMoment, subDay, dayNumber. intros Hm.
  destruct (Z.ltb_spec 1 (dayOfYear m)); simpl; [lia|].
  pose proof (daysBeforeYear_succ (year m - 1)) as Hy.
  replace (year m - 1 + 1) with (year m) in Hy by lia. lia.
Qed.

Lemma timeOfDay_subDay m : timeOfDay (subDay m) = timeOfDay m.
Proof. unfold subDay. by destruct (1 <? dayOfYear m). Qed.

Lemma subDays_valid n m : validMoment m → validMoment (subDays n m).
Proof.
  intros Hm. induction n as [|n IH]; simpl; [done|]. by apply subDay_valid.
Qed.

Lemma dayNumber_subDays n m :
  validMoment m → dayNumber (subDays n m) = dayNumber m - Z.of_nat n.
Proof.
  intros Hm. induction n as [|n IH]; simpl; [lia|].
  rewrite dayNumber_subDay by by apply subDays_valid. lia.
Qed.

Lemma timeOfDay_subDays n m : timeOfDay (subDays n m) = timeOfDay m.
Proof.
  induction n as [|n IH]; simpl; [done|]. by rewrite timeOfDay_subDay.
Qed.

(** A loop between two moments at the same time of day visits both days
    and the days between them. *)
Lemma length_loopDays_same_time s e (n : nat) :
  dayNumber e = dayNumber s + Z.of_nat n → timeOfDay e = timeOfDay s →
  length (loopDays s e) = S n.
Proof.
  intros Hn Ht. rewrite length_loopDays. unfold valueOf. rewrite Hn, Ht.
  replace ((dayNumber s + Z.of_nat n) * msPerDay + timeOfDay s
           - (dayNumber s * msPerDay + timeOfDay s))
    with (Z.of_nat n * msPerDay) by lia.
  rewrite Z.div_mul by done. lia.
Qed.

(** X15. validateAndUpdateEndDate sets a date, after a notice, exactly
    when the day of the year of endDate is more than 15 above that of
    startDate, and the date it sets is the valid day 15 days after
    startDate, so that the range has 16 daily buckets. For two dates of
    one year the range is at most 15 days long after the validation. The
    years are not looked at: no date is set for a range over several
    years when the days of the year are not more than 15 apart. *)
Theorem validateAndUpdateEndDate_window interval startDate endDate :
  validMoment startDate → validMoment endDate →
  let effects := validateAndUpdateEndDate interval startDate endDate in
  let endDate' := dateAfter effects endDate in
  (effects = [] ↔ dayOfYear endDate - dayOfYear startDate ≤ 15)
  ∧ (effects ≠ [] →
     effects = [Notice "Exceeded maximum time window. Adjusting end date.";
                SetDate endDate']
     ∧ validMoment endDate'
     ∧ dayNumber endDate' = dayNumber startDate + 15
     ∧ ∃ names, makeBucketNames 17 interval startDate endDate' = Some names
                ∧ length names = 16%nat)
  ∧ (year startDate = year endDate →
     dayNumber endDate' - dayNumber startDate ≤ 15).
Proof.
  intros Hs He effects endDate'. subst effects endDate'.
  unfold validateAndUpdateEndDate. destruct interval.
  destruct (Z.ltb_spec 15 (dayOfYear endDate - dayOfYear startDate))
    as [Hlt|Hle]; unfold dateAfter; cbn [foldl].
  - pose proof (addDays_valid 15 startDate Hs) as Hv.
    pose proof (dayNumber_addDays 15 startDate Hs) as Hn.
    change (Z.to_nat 15) with 15%nat.
    split; [split; [done|intros ?; exfalso; lia]|].
    split; [|intros _; lia]. intros _.
    split; [done|]. split; [done|]. split; [lia|].
    eexists. split.
    + apply makeBucketNames_run; [done|].
      rewrite (length_loopDays_same_time _ _ 15);
        [lia|lia|apply timeOfDay_addDays].
    + rewrite length_fmap. apply (length_loopDays_same_time _ _ 15);
        [lia|apply timeOfDay_addDays].
  - split; [done|]. split; [done|]. intros Hy. unfold dayNumber. rewrite Hy. lia.
Qed.

Lemma validateAndUpdateEndDate_window_witness :
  dayNumber (dateAfter (validateAndUpdateEndDate day (mkMoment 2023 1)
                          (mkMoment 2024 20)) (mkMoment 2024 20))
  = dayNumber (mkMoment 2023 1) + 15.
Proof.
  destruct (validateAndUpdateEndDate_window day
              (mkMoment 2023 1) (mkMoment 2024 20)) as (_ & Hset & _).
  - vm_compute; repeat split; discriminate.
  - vm_compute; repeat split; discriminate.
  - destruct Hset as (_ & _ & Hn & _); [discriminate|exact Hn].
Defined.

(** X16. validateAndUpdateStartDate sets a date, after a notice, exactly
    when the day of the year of endDate is more than 15 above that of
    startDate, and the date it sets is the valid day 15 days before
    endDate, so that the range has 16 daily buckets. For two dates of one
    year the range is at most 15 days long after the validation. *)
Theorem validateAndUpdateStartDate_window interval startDate endDate :
  validMoment startDate → validMoment endDate →
  let effects := validateAndUpdateStartDate interval startDate endDate in
  let startDate' := dateAfter effects startDate in
  (effects = [] ↔ dayOfYear endDate - dayOfYear startDate ≤ 15)
  ∧ (effects ≠ [] →
     effects = [Notice "Exceeded maximum time window. Adjusting start date.";
                SetDate startDate']
     ∧ validMoment startDate'
     ∧ dayNumber startDate' = dayNumber endDate - 15
     ∧ ∃ names, makeBucketNames 17 interval startDate' endDate = Some names
                ∧ length names = 16%nat)
  ∧ (year startDate = year endDate →
     dayNumber endDate - dayNumber startDate' ≤ 15).
Proof.
  intros Hs He effects startDate'. subst effects startDate'.
  unfold validateAndUpdateStartDate. destruct interval.
  destruct (Z.ltb_spec 15 (dayOfYear endDate - dayOfYear startDate))
    as [Hlt|Hle]; unfold dateAfter; cbn [foldl].
  - pose proof (subDays_valid 15 endDate He) as Hv.
    pose proof (dayNumber_subDays 15 endDate He) as Hn.
    change (Z.to_nat 15) with 15%nat.
    split; [split; [done|intros ?; exfalso; lia]|].
    split; [|intros _; lia]. intros _.
    split; [done|]. split; [done|]. split; [lia|].
    eexists. split.
    + apply makeBucketNames_run; [done|].
      rewrite (length_loopDays_same_time _ _ 15);
        [lia|lia|by rewrite timeOfDay_subDays].
    + rewrite length_fmap. apply (length_loopDays_same_time _ _ 15);
        [lia|by rewrite timeOfDay_subDays].
  - split; [done|]. split; [done|]. intros Hy. unfold dayNumber. rewrite Hy. lia.
Qed.

Lemma validateAndUpdateStartDate_window_witness :
  dayNumber (dateAfter (validateAndUpdateStartDate day (mkMoment 2023 1)
                          (mkMoment 2024 20)) (mkMoment 2023 1))
  = dayNumber (mkMoment 2024 20) - 15.
Proof.
  destruct (validateAndUpdateStartDate_window day
              (mkMoment 2023 1) (mkMoment 2024 20)) as (_ & Hset & _).
  - vm_compute; repeat split; discriminate.
  - vm_compute; repeat split; discriminate.
  - destruct Hset as (_ & _ & Hn & _); [discriminate|exact Hn].
Defined.

(** ** The balance series of a range *)



(** X18. A range whose end is before its start gives empty results, not
    an error: makeBucketNames returns no bucket name and
    makeDailyBalanceMap returns the empty map, for any fuel but 0. *)
Theorem inverted_range_is_empty fuel interval accounts input startDate endDate :
  validMoment startDate → validMoment endDate →
  dayNumber endDate < dayNumber startDate →
  makeBucketNames (S fuel) interval startDate endDate = Some []
  ∧ makeDailyBalanceMap (S fuel) accounts input startDate endDate = Some ∅.
Proof.
  intros Hs He Hlt.
  assert (valueOf endDate < valueOf startDate) as Hv.
  { revert Hs He. unfold validMoment, valueOf, msPerDay. lia. }
  rewrite makeBucketNames_run, makeDailyBalanceMap_run
    by (done || rewrite loopDays_nil by done; simpl; lia).
  by rewrite loopDays_nil.
Qed.

Lemma inverted_range_is_empty_witness :
  makeBucketNames 1 day (mkMoment 2024 2) (mkMoment 2023 364) = Some []
  ∧ makeDailyBalanceMap 1 ["Assets"%string]
      {[ "2024.001"%string := {[ "Assets"%string := 7 ]} ]}
      (mkMoment 2024 2) (mkMoment 2023 364) = Some ∅.
Proof.
  apply inverted_range_is_empty.
  - vm_compute; repeat split; discriminate.
  - vm_compute; repeat split; discriminate.
  - vm_compute; reflexivity.
Defined.

(** ** Rendering *)

Lemma renderNode_appends n : ∀ output path,
  renderNode output n path = output ++ renderNode [] n path.
Proof.
  induction n as [e label children IH] using TreeNode_forall_ind.
  intros output path. simpl.
  set (newPath := match path with
                  | Some (String _ _ as p) => joinPath p label
                  | _ => label
                  end).
  assert (∀ out,
            foldl (λ output child, renderNode output child (Some newPath))
              out children
            = out ++ foldl (λ output child,
                              renderNode output child (Some newPath))
                       [] children) as Hfold.
  { induction IH as [|c cs Hc _ IHcs]; intros out; simpl.
    - by rewrite app_nil_r.
    - rewrite IHcs, (IHcs (renderNode [] c (Some newPath))), (Hc out).
      by rewrite app_assoc. }
  destruct (negb (length children =? 1)%nat && e).
  - rewrite (Hfold (output ++ [newPath])), (Hfold [newPath]).
    by rewrite app_assoc.
  - apply Hfold.
Qed.

(** X19. renderTree only appends: what the output held before the call
    stays in front, unchanged, and what the call adds does not depend on
    it. *)
Theorem renderTree_appends output node path :
  renderTree output node path = output ++ renderTree [] node path.
Proof.
  destruct node as [root|n]; simpl; [|apply renderNode_appends].
  generalize output. clear output.
  induction (rootChildren root) as [|c cs IH]; intros output; simpl.
  - by rewrite app_nil_r.
  - rewrite IH, (IH (renderNode [] c None)), (renderNode_appends c output).
    by rewrite app_assoc.
Qed.

(** ** The accounts that removeDuplicateAccounts keeps *)

Lemma wfNode_inv n :
  wfNode n →
  NoDup (nodeLabel <$> nodeChildren n) ∧ Forall wfNode (nodeChildren n).
Proof. by intros [e l ch Hnd Hwf]. Qed.

Lemma insertSegments_NoDup segments cs :
  NoDup (nodeLabel <$> cs) → NoDup (nodeLabel <$> insertSegments segments cs).
Proof.
  intros Hnd. destruct segments as [|segment rest]; [done|].
  rewrite insertSegments_labels. case_decide; [done|].
  apply NoDup_app. split; [done|]. split; [|apply NoDup_singleton].
  by intros l Hl ->%list_elem_of_singleton.
Qed.

Lemma insertSegments_wf segments : ∀ cs,
  NoDup (nodeLabel <$> cs) → Forall wfNode cs →
  Forall wfNode (insertSegments segments cs).
Proof.
  induction segments as [|segment rest IH]; intros cs Hnd Hwf; [done|].
  induction cs as [|[e l ch] cs IHcs]; rewrite insertSegments_cons.
  - repeat constructor.
    + apply insertSegments_NoDup. constructor.
    + apply IH; constructor.
  - apply Forall_cons in Hwf as [[Hch Hwfch]%wfNode_inv Hwf].
    rewrite fmap_cons in Hnd. apply NoDup_cons in Hnd as [_ Hnd].
    simpl in Hch, Hwfch.
    destruct (String.eqb l segment).
    + constructor; [|done]. constructor.
      * by apply insertSegments_NoDup.
      * by apply IH.
    + constructor; [by constructor|]. by apply IHcs.
Qed.

Lemma buildTree_wf input : Forall wfNode (rootChildren (buildTree input)).
Proof.
  induction input as [|p input IH] using rev_ind; [constructor|].
  rewrite buildTree_snoc. simpl.
  apply insertSegments_wf; [apply buildTree_labels_NoDup|done].
Qed.

Lemma findChild_Some s cs n :
  findChild s cs = Some n → n ∈ cs ∧ nodeLabel n = s.
Proof.
  induction cs as [|c cs IH]; simpl; [done|].
  destruct (String.eqb_spec (nodeLabel c) s) as [Heq|_].
  - intros [= <-]. split; [by left|done].
  - intros [Hin Hl]%IH. split; [by right|done].
Qed.

Lemma findNode_cons cs s rest :
  findNode cs (s :: rest)
  = n ← findChild s cs;
    match rest with [] => Some n | _ => findNode (nodeChildren n) rest end.
Proof. simpl. by destruct (findChild s cs). Qed.

Lemma bind_nodesFrom_findNode cs :
  Forall (λ n, ∀ pre q m,
            (q, m) ∈ nodesFrom pre n
            ↔ ∃ path, q = pre ++ nodeLabel n :: path
                ∧ match path with
                  | [] => m = n
                  | _ => findNode (nodeChildren n) path = Some m
                  end) cs →
  NoDup (nodeLabel <$> cs) →
  ∀ pre q m,
    (q, m) ∈ cs ≫= nodesFrom pre
    ↔ ∃ path, q = pre ++ path ∧ findNode cs path = Some m.
Proof.
  intros IH Hnd pre q m. rewrite list_elem_of_bind. split.
  - intros (c & Hq & Hc).
    pose proof (proj1 (Forall_forall _ _) IH c Hc) as IHc.
    apply IHc in Hq as (path & -> & Hpath).
    exists (nodeLabel c :: path). split; [done|].
    rewrite findNode_cons, (findChild_elem _ c Hnd Hc). simpl.
    destruct path; [by subst|done].
  - intros (path & -> & Hfind). destruct path as [|s rest]; [done|].
    rewrite findNode_cons in Hfind.
    destruct (findChild s cs) as [c|] eqn:Hc; [|done].
    simpl in Hfind. apply findChild_Some in Hc as [Hc <-].
    exists c. split; [|done].
    pose proof (proj1 (Forall_forall _ _) IH c Hc) as IHc.
    apply IHc. exists rest. split; [done|].
    destruct rest; [by injection Hfind|done].
Qed.

(** The nodes that the depth-first listing holds are the nodes that the
    paths lead to. *)
Lemma nodesFrom_findNode n :
  wfNode n → ∀ pre q m,
    (q, m) ∈ nodesFrom pre n
    ↔ ∃ path, q = pre ++ nodeLabel n :: path
        ∧ match path with
          | [] => m = n
          | _ => findNode (nodeChildren n) path = Some m
          end.
Proof.
  induction n as [e label children IH] using TreeNode_forall_ind.
  intros [Hnd Hwf]%wfNode_inv pre q m. simpl in Hnd, Hwf.
  assert (Forall (λ n, ∀ pre q m,
            (q, m) ∈ nodesFrom pre n
            ↔ ∃ path, q = pre ++ nodeLabel n :: path
                ∧ match path with
                  | [] => m = n
                  | _ => findNode (nodeChildren n) path = Some m
                  end) children) as IH'.
  { apply Forall_forall. intros c Hc.
    apply (proj1 (Forall_forall _ _) IH c Hc).
    apply (proj1 (Forall_forall _ _) Hwf c Hc). }
  pose proof (bind_nodesFrom_findNode children IH' Hnd) as Hlist.
  simpl. rewrite elem_of_cons, Hlist. split.
  - intros [[= -> ->]|(path & -> & Hfind)].
    + by exists [].
    + exists path. rewrite <- app_assoc. split; [done|].
      destruct path; [done|done].
  - intros (path & -> & Hpath). destruct path as [|s rest].
    + left. by subst.
    + right. exists (s :: rest). by rewrite <- app_assoc.
Qed.

Lemma treeNodes_findNode cs q m :
  NoDup (nodeLabel <$> cs) → Forall wfNode cs →
  (q, m) ∈ treeNodes cs ↔ findNode cs q = Some m.
Proof.
  intros Hnd Hwf. unfold treeNodes.
  rewrite bind_nodesFrom_findNode; [|by eapply Forall_impl;
    [exact Hwf|intros n Hn; by apply nodesFrom_findNode]|done].
  split; [by intros (path & -> & ?)|]. intros Hfind. by exists q.
Qed.

Lemma findNode_wf cs path n :
  Forall wfNode cs → findNode cs path = Some n → wfNode n.
Proof.
  revert cs. induction path as [|s rest IH]; intros cs Hwf; [done|].
  rewrite findNode_cons.
  destruct (findChild s cs) as [c|] eqn:Hc; [|done]. simpl.
  apply findChild_Some in Hc as [Hc _].
  pose proof (proj1 (Forall_forall _ _) Hwf c Hc) as Hwfc.
  destruct rest as [|s' rest]; [by intros [= <-]|].
  apply IH. by apply wfNode_inv in Hwfc as [_ ?].
Qed.

Lemma findNode_snoc cs path s :
  path ≠ [] →
  findNode cs (path ++ [s])
  = n ← findNode cs path; findChild s (nodeChildren n).
Proof.
  revert cs. induction path as [|s0 rest IH]; intros cs Hne; [done|].
  destruct rest as [|s1 rest].
  - simpl. destruct (findChild s0 cs) as [c|]; simpl; [|done].
    by destruct (findChild s (nodeChildren c)).
  - change ((s0 :: s1 :: rest) ++ [s]) with (s0 :: (s1 :: rest) ++ [s]).
    rewrite !findNode_cons.
    destruct (findChild s0 cs) as [c|]; [|done].
    exact (IH (nodeChildren c) ltac:(done)).
Qed.

(** Splitting at the colons and joining with colons gives the path back. *)
Lemma concat_split p : String.concat ":" (split ":" p) = p.
Proof.
  induction p as [|c p IH]; [done|]. simpl.
  destruct (Ascii.eqb_spec c ":") as [->|Hc].
  - pose proof (split_nonempty ":" p) as Hne.
    destruct (split ":" p) as [|seg segs]; [done|].
    change (String.concat ":" ("" :: seg :: segs))
      with (String.app "" (String.app ":" (String.concat ":" (seg :: segs)))).
    by rewrite IH.
  - pose proof (split_nonempty ":" p) as Hne.
    destruct (split ":" p) as [|seg segs]; [done|].
    destruct segs as [|seg' segs].
    + simpl in *. by rewrite IH.
    + change (String.concat ":" (String c seg :: seg' :: segs))
        with (String.app (String c seg)
                (String.app ":" (String.concat ":" (seg' :: segs)))).
      rewrite string_app_cons. f_equal. exact IH.
Qed.

Lemma split_inj p q : split ":" p = split ":" q → p = q.
Proof.
  intros Heq. by rewrite <- (concat_split p), <- (concat_split q), Heq.
Qed.

Lemma prefix_snoc_lookup {A : Type} (l k : list A) s :
  (l ++ [s]) `prefix_of` k ↔ l `prefix_of` k ∧ k !! length l = Some s.
Proof.
  split.
  - intros [t ->]. rewrite <- app_assoc. split; [by eexists|].
    by apply list_lookup_middle.
  - intros [[t ->] Hs]. rewrite lookup_app_r, Nat.sub_diag in Hs by lia.
    destruct t as [|s' t]; simplify_eq/=. exists t. by rewrite <- app_assoc.
Qed.

Lemma elem_of_childSegments input path s :
  s ∈ childSegments input path
  ↔ ∃ p, p ∈ input ∧ (path ++ [s]) `prefix_of` split ":" p.
Proof.
  unfold childSegments. rewrite elem_of_remove_dups, list_elem_of_omap.
  split; intros (p & Hp & Hs); exists p; (split; [done|]).
  - case_decide; [|done]. by apply prefix_snoc_lookup.
  - apply prefix_snoc_lookup in Hs as [Hpre Hs]. by rewrite decide_True.
Qed.

Lemma findChild_is_Some s cs :
  is_Some (findChild s cs) ↔ s ∈ nodeLabel <$> cs.
Proof.
  induction cs as [|c cs IH].
  - split; [by intros [? ?]|by intros ?%elem_of_nil].
  - rewrite fmap_cons, elem_of_cons. cbn [findChild].
    destruct (String.eqb_spec (nodeLabel c) s) as [Heq|Hne].
    + split; [by left|by eexists].
    + rewrite IH. split; [by right|]. by intros [?|?].
Qed.

(** The children of the node of a path are the segments that follow the
    path in the input. *)
Lemma buildTree_children input path n s :
  findNode (rootChildren (buildTree input)) path = Some n →
  s ∈ nodeLabel <$> nodeChildren n ↔ s ∈ childSegments input path.
Proof.
  intros Hn. assert (path ≠ []) as Hne by by intros ->.
  rewrite <- findChild_is_Some, elem_of_childSegments.
  transitivity (is_Some (existsAt (rootChildren (buildTree input))
                           (path ++ [s]))).
  - unfold existsAt. rewrite fmap_is_Some.
    assert (findNode (rootChildren (buildTree input)) (path ++ [s])
            = findChild s (nodeChildren n)) as Hs
      by (by rewrite findNode_snoc, Hn by done).
    by rewrite Hs.
  - rewrite existsAt_buildTree. case_decide as Hd.
    + split; [|by eexists]. intros _. destruct Hd as [_ Hex].
      by apply Exists_exists in Hex.
    + split; [by intros [? ?]|]. intros Hex. destruct Hd.
      split; [by destruct path|by apply Exists_exists].
Qed.

Lemma buildTree_children_length input path n :
  findNode (rootChildren (buildTree input)) path = Some n →
  length (nodeChildren n) = length (childSegments input path).
Proof.
  intros Hn. rewrite <- (length_fmap nodeLabel). apply Permutation_length.
  apply NoDup_Permutation.
  - eapply wfNode_inv, findNode_wf; [apply buildTree_wf|done].
  - apply NoDup_remove_dups.
  - intros s. by apply buildTree_children.
Qed.

(** A path ends at a node exactly when its segments are those of an input
    path. *)
Lemma buildTree_exists input path n :
  findNode (rootChildren (buildTree input)) path = Some n →
  nodeExists n = true ↔ path ∈ split ":" <$> input.
Proof.
  intros Hn. pose proof (existsAt_buildTree input path) as Hex.
  unfold existsAt in Hex. rewrite Hn in Hex. simpl in Hex.
  case_decide; [|done]. injection Hex as ->. apply bool_decide_eq_true.
Qed.

Lemma buildTree_findNode input p :
  p ∈ input →
  ∃ n, findNode (rootChildren (buildTree input)) (split ":" p) = Some n
       ∧ nodeExists n = true.
Proof.
  intros Hp. pose proof (existsAt_buildTree input (split ":" p)) as Hex.
  rewrite decide_True in Hex.
  - unfold existsAt in Hex.
    destruct (findNode _ _) as [n|]; [|done]. exists n. split; [done|].
    simpl in Hex. injection Hex as ->. apply bool_decide_eq_true.
    by apply list_elem_of_fmap_2.
  - split; [apply split_nonempty|]. apply Exists_exists. by exists p.
Qed.

Lemma elem_of_renderedPaths out nodes :
  out ∈ renderedPaths nodes
  ↔ ∃ path n, (path, n) ∈ nodes ∧ isEmitted n
              ∧ out = String.concat ":" path.
Proof.
  unfold renderedPaths. rewrite list_elem_of_fmap. split.
  - intros ([path n] & -> & [Hem Hin]%list_elem_of_filter). by exists path, n.
  - intros (path & n & Hin & Hem & ->). exists (path, n). split; [done|].
    by apply list_elem_of_filter.
Qed.

Lemma elem_of_removeDuplicateAccounts input p :
  Forall (λ p, ¬ hasPrefix ":" p) input →
  p ∈ removeDuplicateAccounts input
  ↔ p ∈ input ∧ length (childSegments input (split ":" p)) ≠ 1%nat.
Proof.
  intros Hinput. rewrite removeDuplicateAccounts_joined_paths by done.
  rewrite elem_of_renderedPaths. split.
  - intros (path & n & Hin & [Hlen Hex] & ->).
    apply treeNodes_findNode in Hin;
      [|apply buildTree_labels_NoDup|apply buildTree_wf].
    apply (buildTree_exists input path n Hin) in Hex.
    apply list_elem_of_fmap in Hex as (q & -> & Hq).
    rewrite concat_split. split; [done|].
    by rewrite <- (buildTree_children_length input _ n).
  - intros [Hp Hlen].
    destruct (buildTree_findNode input p Hp) as (n & Hn & Hex).
    exists (split ":" p), n. split; [|split].
    + by apply treeNodes_findNode;
        [apply buildTree_labels_NoDup|apply buildTree_wf|].
    + split; [|done]. by rewrite (buildTree_children_length input _ n Hn).
    + by rewrite concat_split.
Qed.

(** X20. For paths that do not start with a colon, removeDuplicateAccounts
    keeps exactly the input accounts that do not have exactly one child:
    an account is in the output when it is in the input and the input
    paths that continue it do not all continue with one same segment.
    So the output holds no account that the input does not hold, and an
    account that no input path continues is kept. *)
Theorem removeDuplicateAccounts_kept input p :
  Forall (λ p, ¬ hasPrefix ":" p) input →
  p ∈ removeDuplicateAccounts input
  ↔ p ∈ input ∧ length (childSegments input (split ":" p)) ≠ 1%nat.
Proof. apply elem_of_removeDuplicateAccounts. Qed.

Lemma removeDuplicateAccounts_kept_witness :
  ("Liabilities:Credit"%string
     ∈ removeDuplicateAccounts
         ["Liabilities"; "Liabilities:Credit"; "Liabilities:Credit:Chase";
          "Liabilities:Credit:Citi"]%string)
  ∧ ("Liabilities"%string
       ∉ removeDuplicateAccounts
           ["Liabilities"; "Liabilities:Credit"; "Liabilities:Credit:Chase";
            "Liabilities:Credit:Citi"]%string).
Proof.
  assert (Forall (λ p, ¬ hasPrefix ":" p)
            ["Liabilities"; "Liabilities:Credit"; "Liabilities:Credit:Chase";
             "Liabilities:Credit:Citi"]%string) as Hinput.
  { repeat constructor; by apply (bool_decide_eq_false_1 _). }
  split.
  - apply (removeDuplicateAccounts_kept _ _ Hinput).
    split; [by apply (bool_decide_eq_true_1 _)|]. vm_compute. discriminate.
  - intros [_ Hlen]%(removeDuplicateAccounts_kept _ _ Hinput).
    apply Hlen. vm_compute. reflexivity.
Defined.

Lemma bind_nodesFrom_NoDup cs :
  Forall wfNode cs → NoDup (nodeLabel <$> cs) →
  Forall (λ n, ∀ pre, NoDup (nodesFrom pre n).*1) cs →
  ∀ pre, NoDup (cs ≫= nodesFrom pre).*1.
Proof.
  intros Hwf Hnd Hnodes pre.
  induction cs as [|c cs IH]; [constructor|].
  apply Forall_cons in Hwf as [Hwfc Hwf].
  apply Forall_cons in Hnodes as [Hc Hnodes].
  rewrite fmap_cons in Hnd. apply NoDup_cons in Hnd as [Hfresh Hnd].
  simpl. rewrite fmap_app. apply NoDup_app. split; [apply Hc|].
  split; [|by apply IH].
  intros q ([q1 m1] & Hq1 & Hin1)%list_elem_of_fmap
           ([q2 m2] & Hq2 & Hin2)%list_elem_of_fmap.
  simpl in Hq1, Hq2. subst q1 q2.
  apply (nodesFrom_findNode c Hwfc) in Hin1 as (path & -> & _).
  apply bind_nodesFrom_findNode in Hin2 as (path' & Heq & Hfind);
    [|by eapply Forall_impl;
        [exact Hwf|intros n Hn; by apply nodesFrom_findNode]|done].
  apply app_inv_head in Heq. subst path'.
  rewrite findNode_cons in Hfind. apply Hfresh, findChild_is_Some.
  by destruct (findChild (nodeLabel c) cs).
Qed.

Lemma nodesFrom_NoDup n : wfNode n → ∀ pre, NoDup (nodesFrom pre n).*1.
Proof.
  induction n as [e label children IH] using TreeNode_forall_ind.
  intros Hwfn pre. pose proof Hwfn as [Hnd Hwf]%wfNode_inv.
  simpl in Hnd, Hwf. simpl. apply NoDup_cons. split.
  - intros ([q m] & Hq & Hin)%list_elem_of_fmap. simpl in Hq. subst q.
    apply bind_nodesFrom_findNode in Hin as (path & Heq & Hfind);
      [|by eapply Forall_impl;
          [exact Hwf|intros n Hn; by apply nodesFrom_findNode]|done].
    rewrite <- (app_nil_r (pre ++ [label])) in Heq at 1.
    apply app_inv_head in Heq. by subst path.
  - apply bind_nodesFrom_NoDup; [done|done|].
    apply Forall_forall. intros c Hc.
    apply (proj1 (Forall_forall _ _) IH c Hc).
    apply (proj1 (Forall_forall _ _) Hwf c Hc).
Qed.

Lemma NoDup_removeDuplicateAccounts input :
  Forall (λ p, ¬ hasPrefix ":" p) input →
  NoDup (removeDuplicateAccounts input).
Proof.
  intros Hinput. rewrite removeDuplicateAccounts_joined_paths by done.
  pose proof (buildTree_labels_NoDup input) as Hnd.
  pose proof (buildTree_wf input) as Hwf.
  set (cs := rootChildren (buildTree input)) in *.
  unfold renderedPaths. apply NoDup_fmap_2_strong.
  - intros [q1 n1] [q2 n2] [[_ Hex1] Hin1]%list_elem_of_filter
      [[_ Hex2] Hin2]%list_elem_of_filter Heq.
    simpl in *.
    apply treeNodes_findNode in Hin1; [|done|done].
    apply treeNodes_findNode in Hin2; [|done|done].
    apply (buildTree_exists input q1 n1 Hin1) in Hex1.
    apply (buildTree_exists input q2 n2 Hin2) in Hex2.
    apply list_elem_of_fmap in Hex1 as (p1 & -> & _).
    apply list_elem_of_fmap in Hex2 as (p2 & -> & _).
    rewrite !concat_split in Heq. subst p2.
    rewrite Hin1 in Hin2. by injection Hin2 as ->.
  - apply NoDup_filter. apply (NoDup_fmap_1 fst). unfold treeNodes.
    apply bind_nodesFrom_NoDup; [done|done|].
    eapply Forall_impl; [exact Hwf|]. intros n Hn. by apply nodesFrom_NoDup.
Qed.

(** X21. For paths that do not start with a colon, removeDuplicateAccounts
    returns every account at most once, however often the input lists
    it. *)
Theorem removeDuplicateAccounts_NoDup input :
  Forall (λ p, ¬ hasPrefix ":" p) input →
  NoDup (removeDuplicateAccounts input).
Proof. apply NoDup_removeDuplicateAccounts. Qed.

Lemma removeDuplicateAccounts_NoDup_witness :
  NoDup (removeDuplicateAccounts ["Assets"; "Assets:Bank"; "Assets"]%string).
Proof.
  apply removeDuplicateAccounts_NoDup.
  repeat constructor; by apply (bool_decide_eq_false_1 _).
Defined.

(** Among the elements of a list that satisfy [P], one has the greatest
    measure. *)
Lemma list_exists_max {A : Type} (P : A → Prop) `{∀ x, Decision (P x)}
    (f : A → nat) (l : list A) :
  (∃ x, x ∈ l ∧ P x) →
  ∃ x, x ∈ l ∧ P x ∧ ∀ y, y ∈ l → P y → (f y ≤ f x)%nat.
Proof.
  induction l as [|a l IH]; intros (x & Hx & HP).
  - by apply elem_of_nil in Hx.
  - destruct (decide (Exists P l)) as [Hl|Hl].
    + apply Exists_exists in Hl. destruct (IH Hl) as (m & Hm & HPm & Hmax).
      destruct (decide (P a ∧ (f m < f a)%nat)) as [[HPa Hlt]|Hna].
      * exists a. split; [by left|]. split; [done|].
        intros y [->|Hy]%elem_of_cons HPy; [lia|].
        specialize (Hmax y Hy HPy). lia.
      * exists m. split; [by right|]. split; [done|].
        intros y [->|Hy]%elem_of_cons HPy; [|by apply Hmax].
        destruct (decide (f m < f a)%nat); [|lia]. by destruct Hna.
    + apply elem_of_cons in Hx as [->|Hx].
      * exists a. split; [by left|]. split; [done|].
        intros y [->|Hy]%elem_of_cons HPy; [lia|].
        destruct Hl. apply Exists_exists. by exists y.
      * destruct Hl. apply Exists_exists. by exists x.
Qed.

(** An input path that no input path continues is kept. *)
Lemma removeDuplicateAccounts_leaf input pre :
  Forall (λ p, ¬ hasPrefix ":" p) input →
  (∃ q, q ∈ input ∧ pre `prefix_of` split ":" q) →
  ∃ q, q ∈ removeDuplicateAccounts input ∧ pre `prefix_of` split ":" q.
Proof.
  intros Hinput Hex.
  destruct (list_exists_max (λ q, pre `prefix_of` split ":" q)
              (λ q, length (split ":" q)) input Hex)
    as (q & Hq & Hpre & Hmax).
  exists q. split; [|done]. apply elem_of_removeDuplicateAccounts; [done|].
  split; [done|].
  destruct (childSegments input (split ":" q)) as [|s l] eqn:Hch; [done|].
  assert (s ∈ childSegments input (split ":" q)) as Hs
    by (rewrite Hch; by left).
  apply elem_of_childSegments in Hs as (q' & Hq' & Hext).
  assert (pre `prefix_of` split ":" q') as Hpre'.
  { trans (split ":" q); [done|]. trans (split ":" q ++ [s]); [|done].
    by apply prefix_app_r. }
  specialize (Hmax q' Hq' Hpre'). apply prefix_length in Hext.
  rewrite length_app in Hext. simpl in *. lia.
Qed.

Lemma childSegments_removeDuplicateAccounts input path s :
  Forall (λ p, ¬ hasPrefix ":" p) input →
  s ∈ childSegments (removeDuplicateAccounts input) path
  ↔ s ∈ childSegments input path.
Proof.
  intros Hinput. rewrite !elem_of_childSegments. split.
  - intros (q & Hq & Hpre). exists q. split; [|done].
    by apply elem_of_removeDuplicateAccounts in Hq as [? _].
  - by apply removeDuplicateAccounts_leaf.
Qed.

(** X22. For paths that do not start with a colon, a second pass of
    removeDuplicateAccounts removes nothing more: its output on its own
    output holds the same accounts, each once. *)
Theorem removeDuplicateAccounts_twice input :
  Forall (λ p, ¬ hasPrefix ":" p) input →
  removeDuplicateAccounts (removeDuplicateAccounts input)
  ≡ₚ removeDuplicateAccounts input.
Proof.
  intros Hinput.
  assert (Forall (λ p, ¬ hasPrefix ":" p) (removeDuplicateAccounts input))
    as Houtput.
  { apply Forall_forall. intros p Hp.
    apply elem_of_removeDuplicateAccounts in Hp as [Hp _]; [|done].
    by apply (proj1 (Forall_forall _ _) Hinput). }
  apply NoDup_Permutation; [by apply NoDup_removeDuplicateAccounts..|].
  intros p. rewrite (elem_of_removeDuplicateAccounts _ p Houtput).
  split; [by intros [? _]|]. intros Hp. split; [done|].
  apply elem_of_removeDuplicateAccounts in Hp as [_ Hlen]; [|done].
  rewrite (Permutation_length
             (l' := childSegments input (split ":" p))); [done|].
  apply NoDup_Permutation; [apply NoDup_remove_dups..|].
  intros s. by apply childSegments_removeDuplicateAccounts.
Qed.

Lemma removeDuplicateAccounts_twice_witness :
  removeDuplicateAccounts
    (removeDuplicateAccounts
       ["Liabilities"; "Liabilities:Credit"; "Liabilities:Credit:Chase";
        "Liabilities:Credit:Citi"]%string)
  ≡ₚ removeDuplicateAccounts
       ["Liabilities"; "Liabilities:Credit"; "Liabilities:Credit:Chase";
        "Liabilities:Credit:Citi"]%string.
Proof.
  apply removeDuplicateAccounts_twice.
  repeat constructor; by apply (bool_decide_eq_false_1 _).
Defined.
